(** * CAtomic.h: memory orderings and the atomic operation family

    A shallow embedding of [Sources/FuturesPrivate/include/CAtomic.h].

    - C enumerations are the integers the compiler sees ([Z]); the closed
      enumerations Swift imports are inductive types with a [rawValue].
    - Caller-owned storage is a finite map from addresses to the scalar each
      cell currently holds; an address absent from the map has not been
      initialised and every access to it other than [atomic_init] is
      undefined.
    - The <stdatomic.h> generic functions the header forwards to are given
      their C11 7.17 meaning for a single thread of execution. *)

From stdpp Require Import base gmap.
From Stdlib Require Import ZArith Lia Bool.

Local Open Scope Z_scope.

(** ** <stdatomic.h>: the [memory_order] enumeration constants

    CAtomic.h takes these from the platform header; clang and GCC define them
    as [__ATOMIC_RELAXED] = 0 up to [__ATOMIC_SEQ_CST] = 5. *)

Definition memory_order_relaxed : Z := 0.
Definition memory_order_consume : Z := 1.
Definition memory_order_acquire : Z := 2.
Definition memory_order_release : Z := 3.
Definition memory_order_acq_rel : Z := 4.
Definition memory_order_seq_cst : Z := 5.

(** ** The three ordering enumerations (CAtomic.h lines 39-139) *)

Definition AtomicMemoryOrderRelaxed : Z := memory_order_relaxed.
Definition AtomicMemoryOrderConsume : Z := memory_order_consume.
Definition AtomicMemoryOrderAcquire : Z := memory_order_acquire.
Definition AtomicMemoryOrderRelease : Z := memory_order_release.
Definition AtomicMemoryOrderAcqrel : Z := memory_order_acq_rel.
Definition AtomicMemoryOrderSeqcst : Z := memory_order_seq_cst.

Definition AtomicLoadMemoryOrderRelaxed : Z := memory_order_relaxed.
Definition AtomicLoadMemoryOrderConsume : Z := memory_order_consume.
Definition AtomicLoadMemoryOrderAcquire : Z := memory_order_acquire.
Definition AtomicLoadMemoryOrderSeqcst : Z := memory_order_seq_cst.

Definition AtomicStoreMemoryOrderRelaxed : Z := memory_order_relaxed.
Definition AtomicStoreMemoryOrderConsume : Z := memory_order_consume.
Definition AtomicStoreMemoryOrderRelease : Z := memory_order_release.
Definition AtomicStoreMemoryOrderSeqcst : Z := memory_order_seq_cst.

(** The enumerations as closed types, with the raw value of each case. *)

Inductive AtomicMemoryOrder : Type :=
  | Relaxed | Consume | Acquire | Release | Acqrel | Seqcst.

Inductive AtomicLoadMemoryOrder : Type :=
  | LoadRelaxed | LoadConsume | LoadAcquire | LoadSeqcst.

Inductive AtomicStoreMemoryOrder : Type :=
  | StoreRelaxed | StoreConsume | StoreRelease | StoreSeqcst.

Definition rawValue (o : AtomicMemoryOrder) : Z :=
  match o with
  | Relaxed => AtomicMemoryOrderRelaxed
  | Consume => AtomicMemoryOrderConsume
  | Acquire => AtomicMemoryOrderAcquire
  | Release => AtomicMemoryOrderRelease
  | Acqrel => AtomicMemoryOrderAcqrel
  | Seqcst => AtomicMemoryOrderSeqcst
  end.

Definition loadRawValue (o : AtomicLoadMemoryOrder) : Z :=
  match o with
  | LoadRelaxed => AtomicLoadMemoryOrderRelaxed
  | LoadConsume => AtomicLoadMemoryOrderConsume
  | LoadAcquire => AtomicLoadMemoryOrderAcquire
  | LoadSeqcst => AtomicLoadMemoryOrderSeqcst
  end.

Definition storeRawValue (o : AtomicStoreMemoryOrder) : Z :=
  match o with
  | StoreRelaxed => AtomicStoreMemoryOrderRelaxed
  | StoreConsume => AtomicStoreMemoryOrderConsume
  | StoreRelease => AtomicStoreMemoryOrderRelease
  | StoreSeqcst => AtomicStoreMemoryOrderSeqcst
  end.

(** The cast [(enum AtomicMemoryOrder)fail]: a load ordering read as a
    general ordering.  On raw values the cast is the identity. *)
Definition asMemoryOrder (o : AtomicLoadMemoryOrder) : AtomicMemoryOrder :=
  match o with
  | LoadRelaxed => Relaxed
  | LoadConsume => Consume
  | LoadAcquire => Acquire
  | LoadSeqcst => Seqcst
  end.

(** The values a variable of each enumeration type is meant to hold. *)
Definition isMemoryOrder (z : Z) : Prop := ∃ o, z = rawValue o.
Definition isLoadMemoryOrder (z : Z) : Prop := ∃ o, z = loadRawValue o.

(** ** AtomicMemoryOrderStrongestLoadOrder (lines 141-159)

    The [switch] over the raw value of [self], [default] included. *)

Definition AtomicMemoryOrderStrongestLoadOrder (self : Z) : Z :=
  if self =? AtomicMemoryOrderRelaxed then AtomicLoadMemoryOrderRelaxed
  else if self =? AtomicMemoryOrderConsume then AtomicLoadMemoryOrderConsume
  else if self =? AtomicMemoryOrderAcquire then AtomicLoadMemoryOrderAcquire
  else if self =? AtomicMemoryOrderRelease then AtomicLoadMemoryOrderRelaxed
  else if self =? AtomicMemoryOrderAcqrel then AtomicLoadMemoryOrderAcquire
  else if self =? AtomicMemoryOrderSeqcst then AtomicLoadMemoryOrderSeqcst
  else AtomicLoadMemoryOrderSeqcst.

(** ** Scalar types and the instantiations (lines 248-258)

    [_CATOMIC_VAR(name, swift_type, atomic_type, c_type)] and
    [_CATOMIC_INTEGER(...)] are expanded once per [name].  The width of
    [long] depends on the data model of the target. *)

Inductive data_model : Type := ILP32 | LP64.

Inductive c_type : Type :=
  | c_Bool | c_long | c_schar | c_short | c_int | c_llong
  | c_ulong | c_uchar | c_ushort | c_uint | c_ullong.

Inductive atomic_var : Type :=
  | AtomicBool
  | AtomicInt | AtomicInt8 | AtomicInt16 | AtomicInt32 | AtomicInt64
  | AtomicUInt | AtomicUInt8 | AtomicUInt16 | AtomicUInt32 | AtomicUInt64.

Inductive catomic_macro : Type := CATOMIC_VAR | CATOMIC_INTEGER.

Definition macro_of (name : atomic_var) : catomic_macro :=
  match name with
  | AtomicBool => CATOMIC_VAR
  | _ => CATOMIC_INTEGER
  end.

Definition c_type_of (name : atomic_var) : c_type :=
  match name with
  | AtomicBool => c_Bool
  | AtomicInt => c_long
  | AtomicInt8 => c_schar
  | AtomicInt16 => c_short
  | AtomicInt32 => c_int
  | AtomicInt64 => c_llong
  | AtomicUInt => c_ulong
  | AtomicUInt8 => c_uchar
  | AtomicUInt16 => c_ushort
  | AtomicUInt32 => c_uint
  | AtomicUInt64 => c_ullong
  end.

(** Representation of a scalar type: [_Bool], or an integer of a given
    signedness and width in bits. *)
Inductive repr : Type :=
  | RBool
  | RSigned (bits : Z)
  | RUnsigned (bits : Z).

Definition long_bits (dm : data_model) : Z :=
  match dm with ILP32 => 32 | LP64 => 64 end.

Definition repr_of (dm : data_model) (ty : c_type) : repr :=
  match ty with
  | c_Bool => RBool
  | c_long => RSigned (long_bits dm)
  | c_schar => RSigned 8
  | c_short => RSigned 16
  | c_int => RSigned 32
  | c_llong => RSigned 64
  | c_ulong => RUnsigned (long_bits dm)
  | c_uchar => RUnsigned 8
  | c_ushort => RUnsigned 16
  | c_uint => RUnsigned 32
  | c_ullong => RUnsigned 64
  end.

(** Width in bits of the integer types ([_Bool] holds one bit of value). *)
Definition width (r : repr) : Z :=
  match r with
  | RBool => 1
  | RSigned bits => bits
  | RUnsigned bits => bits
  end.

(** The values an object of the type can hold. *)
Definition in_range (r : repr) (v : Z) : Prop :=
  match r with
  | RBool => 0 <= v <= 1
  | RSigned bits => - 2 ^ (bits - 1) <= v < 2 ^ (bits - 1)
  | RUnsigned bits => 0 <= v < 2 ^ bits
  end.

(** Conversion of a mathematical result to the type: reduction modulo
    [2 ^ bits], into the signed or the unsigned window; any non-zero value
    converts to [1] in [_Bool]. *)
Definition wrap (r : repr) (v : Z) : Z :=
  match r with
  | RBool => if v =? 0 then 0 else 1
  | RSigned bits => (v + 2 ^ (bits - 1)) mod 2 ^ bits - 2 ^ (bits - 1)
  | RUnsigned bits => v mod 2 ^ bits
  end.

(** ** Storage and effects

    Addresses are positive numbers, so that no pointer is null
    ([_Nonnull]).  A call either returns a value and the storage it leaves
    behind, or stops in [assert], or is undefined because it accessed
    storage that holds no value. *)

Abbreviation pointer := positive.
Abbreviation memory := (gmap positive Z).

Inductive outcome (A : Type) : Type :=
  | Done (a : A) (m : memory)
  | AssertionFailure
  | Undefined.

Arguments Done {A} a m.
Arguments AssertionFailure {A}.
Arguments Undefined {A}.

Definition M (A : Type) : Type := memory → outcome A.

#[global] Instance M_ret : MRet M := λ A a m, Done a m.

#[global] Instance M_bind : MBind M := λ A B k c m,
  match c m with
  | Done a m' => k a m'
  | AssertionFailure => AssertionFailure
  | Undefined => Undefined
  end.

(** Reading and writing an object through a pointer. *)
Definition read (p : pointer) : M Z := λ m,
  match m !! p with
  | Some v => Done v m
  | None => Undefined
  end.

Definition write (p : pointer) (v : Z) : M unit := λ m,
  match m !! p with
  | Some _ => Done tt (<[p := v]> m)
  | None => Undefined
  end.

(** <assert.h>: [assert(e)] expands to nothing when [NDEBUG] is defined and
    aborts the program when [e] is false otherwise. *)
Definition assert (NDEBUG : bool) (e : bool) : M unit := λ m,
  if NDEBUG || e then Done tt m else AssertionFailure.

(** ** <stdatomic.h>: the generic functions, for one thread (C11 7.17.2.2,
    7.17.7).  The ordering arguments constrain how the access is seen from
    other threads and have no part in the value computed. *)

Definition atomic_init (obj : pointer) (value : Z) : M unit := λ m,
  Done tt (<[obj := value]> m).

Definition atomic_load_explicit (obj : pointer) (order : Z) : M Z :=
  read obj.

Definition atomic_store_explicit (obj : pointer) (desired : Z) (order : Z)
  : M unit :=
  write obj desired.

Definition atomic_exchange_explicit (obj : pointer) (desired : Z) (order : Z)
  : M Z :=
  old ← read obj;
  write obj desired;;
  mret old.

(** Compares the object with [*expected]; if equal stores [desired] into the
    object, if not stores the object's value into [*expected]; returns the
    result of the comparison. *)
Definition atomic_compare_exchange_strong_explicit
    (obj expected : pointer) (desired : Z) (success failure : Z) : M bool :=
  cur ← read obj;
  exp ← read expected;
  if cur =? exp
  then write obj desired;; mret true
  else write expected cur;; mret false.

(** The weak form may fail spuriously: [spurious] is the platform's choice
    for this attempt.  A spurious failure returns false and stores back into
    [*expected] the contents that were there. *)
Definition atomic_compare_exchange_weak_explicit (spurious : bool)
    (obj expected : pointer) (desired : Z) (success failure : Z) : M bool :=
  cur ← read obj;
  exp ← read expected;
  if (cur =? exp) && negb spurious
  then write obj desired;; mret true
  else write expected cur;; mret false.

(** Fetch-and-modify: the object receives the result of the operator,
    computed in the object's type, and the old value is returned.  Integer
    arithmetic wraps around silently, for signed types too.  [r] is the
    representation of the [atomic_type] the pointer is cast to. *)
Definition atomic_fetch (op : Z → Z → Z) (r : repr)
    (obj : pointer) (operand : Z) (order : Z) : M Z :=
  old ← read obj;
  write obj (wrap r (op old operand));;
  mret old.

Definition atomic_fetch_add_explicit := atomic_fetch Z.add.
Definition atomic_fetch_sub_explicit := atomic_fetch Z.sub.
Definition atomic_fetch_and_explicit := atomic_fetch Z.land.
Definition atomic_fetch_or_explicit := atomic_fetch Z.lor.
Definition atomic_fetch_xor_explicit := atomic_fetch Z.lxor.

(** ** The operation family (lines 195-246)

    One definition per function of the macro body; [name] selects the
    instantiation [C##name##...].  [NDEBUG] tells whether the translation
    unit was compiled with assertions disabled. *)

Section CATOMIC.

Context (dm : data_model) (NDEBUG : bool).

Definition CInitialize (name : atomic_var) (ptr : pointer) (value : Z)
  : M unit :=
  atomic_init ptr value.

Definition CCompareExchangeStrong (name : atomic_var)
    (ptr expected : pointer) (desired : Z) (succ fail : Z) : M bool :=
  assert NDEBUG (fail <=? succ);;
  atomic_compare_exchange_strong_explicit ptr expected desired succ fail.

Definition CCompareExchangeWeak (spurious : bool) (name : atomic_var)
    (ptr expected : pointer) (desired : Z) (succ fail : Z) : M bool :=
  assert NDEBUG (fail <=? succ);;
  atomic_compare_exchange_weak_explicit spurious
    ptr expected desired succ fail.

Definition CExchange (name : atomic_var) (ptr : pointer) (value : Z)
    (order : Z) : M Z :=
  atomic_exchange_explicit ptr value order.

Definition CLoad (name : atomic_var) (ptr : pointer) (order : Z) : M Z :=
  atomic_load_explicit ptr order.

Definition CStore (name : atomic_var) (ptr : pointer) (value : Z)
    (order : Z) : M unit :=
  atomic_store_explicit ptr value order.

Definition CFetchAnd (name : atomic_var) (ptr : pointer) (value : Z)
    (order : Z) : M Z :=
  atomic_fetch_and_explicit (repr_of dm (c_type_of name)) ptr value order.

Definition CFetchOr (name : atomic_var) (ptr : pointer) (value : Z)
    (order : Z) : M Z :=
  atomic_fetch_or_explicit (repr_of dm (c_type_of name)) ptr value order.

Definition CFetchXor (name : atomic_var) (ptr : pointer) (value : Z)
    (order : Z) : M Z :=
  atomic_fetch_xor_explicit (repr_of dm (c_type_of name)) ptr value order.

(** Only the [_CATOMIC_INTEGER] instantiations have the next two. *)

Definition CFetchAdd (name : atomic_var) (ptr : pointer) (value : Z)
    (order : Z) : M Z :=
  atomic_fetch_add_explicit (repr_of dm (c_type_of name)) ptr value order.

Definition CFetchSub (name : atomic_var) (ptr : pointer) (value : Z)
    (order : Z) : M Z :=
  atomic_fetch_sub_explicit (repr_of dm (c_type_of name)) ptr value order.

(** The caller's compare-and-retry loop around the weak form:
    [while (!C##name##CompareExchangeWeak(ptr, expected, desired, succ,
    fail)) {}].  [schedule] lists the platform's choice at each successive
    attempt; the loop gives up, returning false, when it is exhausted. *)
Fixpoint CompareExchangeWeak_retry (schedule : list bool)
    (name : atomic_var) (ptr expected : pointer) (desired : Z)
    (succ fail : Z) : M bool :=
  match schedule with
  | [] => mret false
  | spurious :: schedule' =>
      ok ← CCompareExchangeWeak spurious name ptr expected desired succ fail;
      if (ok : bool) then mret true
      else CompareExchangeWeak_retry schedule' name ptr expected desired
             succ fail
  end.

End CATOMIC.

(** ** The strength order of the design notes

    [Relaxed < Consume < Acquire < AcqRel < SeqCst] with [Release] placed
    between [Consume] and [AcqRel] and not ordered relative to [Acquire].
    This is the order as the specification words it, kept apart from the
    comparison the header performs. *)

Definition spec_strength_le (a b : AtomicMemoryOrder) : bool :=
  match a, b with
  | Relaxed, _ => true
  | Consume, Relaxed => false
  | Consume, _ => true
  | Acquire, (Acquire | Acqrel | Seqcst) => true
  | Acquire, _ => false
  | Release, (Release | Acqrel | Seqcst) => true
  | Release, _ => false
  | Acqrel, (Acqrel | Seqcst) => true
  | Acqrel, _ => false
  | Seqcst, Seqcst => true
  | Seqcst, _ => false
  end.

(** [a] is strictly stronger than [b]. *)
Definition spec_stronger (a b : AtomicMemoryOrder) : bool :=
  spec_strength_le b a && negb (spec_strength_le a b).

(** ** Well-typed storage

    The cell at [ptr] holds a value of the scalar type of the
    instantiation [name]. *)

Definition holds_scalar (dm : data_model) (name : atomic_var)
    (ptr : pointer) (m : memory) : Prop :=
  ∃ v, m !! ptr = Some v ∧ in_range (repr_of dm (c_type_of name)) v.

(** * Properties *)

(** ** The ordering model *)

Lemma rawValue_inj : ∀ a b, rawValue a = rawValue b → a = b.
Proof. intros [] [] H; first [reflexivity | discriminate H]. Qed.

Lemma loadRawValue_asMemoryOrder :
  ∀ o, rawValue (asMemoryOrder o) = loadRawValue o.
Proof. intros []; reflexivity. Qed.

Lemma isLoadMemoryOrder_isMemoryOrder :
  ∀ z, isLoadMemoryOrder z → isMemoryOrder z.
Proof.
  intros z [o ->]. exists (asMemoryOrder o).
  symmetry; apply loadRawValue_asMemoryOrder.
Qed.

(** The [switch] read off branch by branch: which label matched, and what
    was returned. *)
Lemma StrongestLoadOrder_switch (self : Z) :
  (self = AtomicMemoryOrderRelaxed
     ∧ AtomicMemoryOrderStrongestLoadOrder self = AtomicLoadMemoryOrderRelaxed)
  ∨ (self = AtomicMemoryOrderConsume
     ∧ AtomicMemoryOrderStrongestLoadOrder self = AtomicLoadMemoryOrderConsume)
  ∨ (self = AtomicMemoryOrderAcquire
     ∧ AtomicMemoryOrderStrongestLoadOrder self = AtomicLoadMemoryOrderAcquire)
  ∨ (self = AtomicMemoryOrderRelease
     ∧ AtomicMemoryOrderStrongestLoadOrder self = AtomicLoadMemoryOrderRelaxed)
  ∨ (self = AtomicMemoryOrderAcqrel
     ∧ AtomicMemoryOrderStrongestLoadOrder self = AtomicLoadMemoryOrderAcquire)
  ∨ (self = AtomicMemoryOrderSeqcst
     ∧ AtomicMemoryOrderStrongestLoadOrder self = AtomicLoadMemoryOrderSeqcst)
  ∨ (¬ isMemoryOrder self
     ∧ AtomicMemoryOrderStrongestLoadOrder self = AtomicLoadMemoryOrderSeqcst).
Proof.
  unfold AtomicMemoryOrderStrongestLoadOrder.
  destruct (Z.eqb_spec self AtomicMemoryOrderRelaxed) as [->|n0]; [tauto|].
  destruct (Z.eqb_spec self AtomicMemoryOrderConsume) as [->|n1]; [tauto|].
  destruct (Z.eqb_spec self AtomicMemoryOrderAcquire) as [->|n2]; [tauto|].
  destruct (Z.eqb_spec self AtomicMemoryOrderRelease) as [->|n3]; [tauto|].
  destruct (Z.eqb_spec self AtomicMemoryOrderAcqrel) as [->|n4]; [tauto|].
  destruct (Z.eqb_spec self AtomicMemoryOrderSeqcst) as [->|n5]; [tauto|].
  do 6 right. split; [|reflexivity].
  intros [[] ->]; simpl in *; congruence.
Qed.

Lemma StrongestLoadOrder_isLoadMemoryOrder (self : Z) :
  isLoadMemoryOrder (AtomicMemoryOrderStrongestLoadOrder self).
Proof.
  destruct (StrongestLoadOrder_switch self)
    as [[_ ->]|[[_ ->]|[[_ ->]|[[_ ->]|[[_ ->]|[[_ ->]|[_ ->]]]]]]].
  - exists LoadRelaxed; reflexivity.
  - exists LoadConsume; reflexivity.
  - exists LoadAcquire; reflexivity.
  - exists LoadRelaxed; reflexivity.
  - exists LoadAcquire; reflexivity.
  - exists LoadSeqcst; reflexivity.
  - exists LoadSeqcst; reflexivity.
Qed.

(** A load ordering, read back as a general ordering, is mapped to itself. *)
Lemma StrongestLoadOrder_on_load_order (o : AtomicLoadMemoryOrder) :
  AtomicMemoryOrderStrongestLoadOrder (loadRawValue o) = loadRawValue o.
Proof. destruct o; reflexivity. Qed.

(** C1.  For each of the six orderings the function returns the entry of
    the mapping table: relaxed to relaxed, consume to consume, acquire to
    acquire, release to relaxed (and not to acquire), acq_rel to acquire,
    seq_cst to seq_cst; and the result is always one of the four load
    orderings. *)
Theorem StrongestLoadOrder_table :
  AtomicMemoryOrderStrongestLoadOrder AtomicMemoryOrderRelaxed
    = AtomicLoadMemoryOrderRelaxed
  ∧ AtomicMemoryOrderStrongestLoadOrder AtomicMemoryOrderConsume
    = AtomicLoadMemoryOrderConsume
  ∧ AtomicMemoryOrderStrongestLoadOrder AtomicMemoryOrderAcquire
    = AtomicLoadMemoryOrderAcquire
  ∧ AtomicMemoryOrderStrongestLoadOrder AtomicMemoryOrderRelease
    = AtomicLoadMemoryOrderRelaxed
  ∧ AtomicMemoryOrderStrongestLoadOrder AtomicMemoryOrderAcqrel
    = AtomicLoadMemoryOrderAcquire
  ∧ AtomicMemoryOrderStrongestLoadOrder AtomicMemoryOrderSeqcst
    = AtomicLoadMemoryOrderSeqcst
  ∧ AtomicMemoryOrderStrongestLoadOrder AtomicMemoryOrderRelease
    ≠ AtomicLoadMemoryOrderAcquire
  ∧ ∀ o : AtomicMemoryOrder,
      AtomicMemoryOrderStrongestLoadOrder (rawValue o)
      = loadRawValue
          match o with
          | Relaxed => LoadRelaxed
          | Consume => LoadConsume
          | Acquire => LoadAcquire
          | Release => LoadRelaxed
          | Acqrel => LoadAcquire
          | Seqcst => LoadSeqcst
          end.
Proof.
  repeat split; try reflexivity.
  - discriminate.
  - intros []; reflexivity.
Qed.

(** C9.  The function is total, and an input that is none of the six
    orderings falls to the [default] label, which returns seq_cst, the
    strongest load ordering. *)
Theorem StrongestLoadOrder_default :
  ∀ self : Z,
    ¬ isMemoryOrder self →
    AtomicMemoryOrderStrongestLoadOrder self = AtomicLoadMemoryOrderSeqcst
    ∧ isLoadMemoryOrder (AtomicMemoryOrderStrongestLoadOrder self)
    ∧ ∀ o : AtomicLoadMemoryOrder,
        loadRawValue o <= AtomicMemoryOrderStrongestLoadOrder self.
Proof.
  intros self Hnot.
  destruct (StrongestLoadOrder_switch self)
    as [[E _]|[[E _]|[[E _]|[[E _]|[[E _]|[[E _]|[_ E]]]]]]].
  1: destruct Hnot; exists Relaxed; exact E.
  1: destruct Hnot; exists Consume; exact E.
  1: destruct Hnot; exists Acquire; exact E.
  1: destruct Hnot; exists Release; exact E.
  1: destruct Hnot; exists Acqrel; exact E.
  1: destruct Hnot; exists Seqcst; exact E.
  split; [exact E|]. split.
  - apply StrongestLoadOrder_isLoadMemoryOrder.
  - intros o. rewrite E. destruct o; discriminate.
Qed.

Lemma StrongestLoadOrder_default_witness :
  ¬ isMemoryOrder 42
  ∧ AtomicMemoryOrderStrongestLoadOrder 42 = AtomicLoadMemoryOrderSeqcst.
Proof.
  assert (H : ¬ isMemoryOrder 42).
  { intros [o E]. destruct o; discriminate E. }
  split; [exact H|].
  exact (proj1 (StrongestLoadOrder_default 42 H)).
Defined.

(** C10.  Every output is a fixed point: applying the function to its own
    result, read as a general ordering, returns that result. *)
Theorem StrongestLoadOrder_idempotent :
  ∀ o : AtomicMemoryOrder,
    AtomicMemoryOrderStrongestLoadOrder
      (AtomicMemoryOrderStrongestLoadOrder (rawValue o))
    = AtomicMemoryOrderStrongestLoadOrder (rawValue o).
Proof.
  intros o.
  destruct (StrongestLoadOrder_isLoadMemoryOrder (rawValue o)) as [l ->].
  apply StrongestLoadOrder_on_load_order.
Qed.

(** The same holds of inputs outside the enumeration. *)
Lemma StrongestLoadOrder_raw_fixed_point (self : Z) :
  AtomicMemoryOrderStrongestLoadOrder
    (AtomicMemoryOrderStrongestLoadOrder self)
  = AtomicMemoryOrderStrongestLoadOrder self.
Proof.
  destruct (StrongestLoadOrder_isLoadMemoryOrder self) as [l ->].
  apply StrongestLoadOrder_on_load_order.
Qed.

(** ** Running a call: the equations of the effect layer *)

Lemma bind_Done {A B} (c : M A) (k : A → M B) (m m' : memory) (a : A) :
  c m = Done a m' → (c ≫= k) m = k a m'.
Proof. intros H. unfold mbind, M_bind. rewrite H. reflexivity. Qed.

Lemma bind_AssertionFailure {A B} (c : M A) (k : A → M B) (m : memory) :
  c m = AssertionFailure → (c ≫= k) m = AssertionFailure.
Proof. intros H. unfold mbind, M_bind. rewrite H. reflexivity. Qed.

Lemma bind_not_AssertionFailure {A B} (c : M A) (k : A → M B) (m : memory) :
  c m ≠ AssertionFailure →
  (∀ a m', k a m' ≠ AssertionFailure) →
  (c ≫= k) m ≠ AssertionFailure.
Proof.
  intros Hc Hk. unfold mbind, M_bind.
  destruct (c m) as [a m'| |]; [apply Hk|now destruct Hc|discriminate].
Qed.

Lemma read_Some (p : pointer) (m : memory) (v : Z) :
  m !! p = Some v → read p m = Done v m.
Proof. intros H. unfold read. rewrite H. reflexivity. Qed.

Lemma write_Some (p : pointer) (m : memory) (old v : Z) :
  m !! p = Some old → write p v m = Done tt (<[p := v]> m).
Proof. intros H. unfold write. rewrite H. reflexivity. Qed.

Lemma read_not_AssertionFailure (p : pointer) (m : memory) :
  read p m ≠ AssertionFailure.
Proof. unfold read. destruct (m !! p); discriminate. Qed.

Lemma write_not_AssertionFailure (p : pointer) (v : Z) (m : memory) :
  write p v m ≠ AssertionFailure.
Proof. unfold write. destruct (m !! p); discriminate. Qed.

Lemma mret_not_AssertionFailure {A} (a : A) (m : memory) :
  (mret a : M A) m ≠ AssertionFailure.
Proof. discriminate. Qed.

Lemma assert_passes (NDEBUG e : bool) (m : memory) :
  NDEBUG = true ∨ e = true → assert NDEBUG e m = Done tt m.
Proof. unfold assert. intros [-> | ->]; [|rewrite orb_true_r]; reflexivity. Qed.

Lemma assert_aborts (e : bool) (m : memory) :
  e = false → assert false e m = AssertionFailure.
Proof. intros ->. reflexivity. Qed.

Create HintDb no_abort.

#[local] Hint Resolve read_not_AssertionFailure write_not_AssertionFailure
  : no_abort.

(** The <stdatomic.h> functions never stop in [assert]. *)
Lemma strong_not_AssertionFailure obj expected desired success failure m :
  atomic_compare_exchange_strong_explicit obj expected desired success failure m
  ≠ AssertionFailure.
Proof.
  unfold atomic_compare_exchange_strong_explicit.
  apply bind_not_AssertionFailure; [auto with no_abort|]. intros cur m1.
  apply bind_not_AssertionFailure; [auto with no_abort|]. intros exp m2.
  destruct (cur =? exp);
    (apply bind_not_AssertionFailure; [auto with no_abort|]);
    intros; apply mret_not_AssertionFailure.
Qed.

Lemma weak_not_AssertionFailure sp obj expected desired success failure m :
  atomic_compare_exchange_weak_explicit sp obj expected desired success failure m
  ≠ AssertionFailure.
Proof.
  unfold atomic_compare_exchange_weak_explicit.
  apply bind_not_AssertionFailure; [auto with no_abort|]. intros cur m1.
  apply bind_not_AssertionFailure; [auto with no_abort|]. intros exp m2.
  destruct ((cur =? exp) && negb sp);
    (apply bind_not_AssertionFailure; [auto with no_abort|]);
    intros; apply mret_not_AssertionFailure.
Qed.

(** ** The assertion of the two compare-exchange functions *)

(** In a build with assertions, a call stops in [assert] exactly when the
    raw value of [fail] exceeds that of [succ]. *)
Lemma CompareExchangeStrong_aborts_iff name ptr expected desired succ fail m :
  CCompareExchangeStrong false name ptr expected desired succ fail m
    = AssertionFailure
  ↔ succ < fail.
Proof.
  unfold CCompareExchangeStrong. split.
  - intros H. destruct (Z.leb_spec fail succ) as [Hle|Hlt]; [|exact Hlt].
    exfalso. revert H.
    rewrite (bind_Done _ _ m m tt) by (apply assert_passes; right; lia).
    apply strong_not_AssertionFailure.
  - intros Hlt. apply bind_AssertionFailure, assert_aborts. lia.
Qed.

Lemma CompareExchangeWeak_aborts_iff sp name ptr expected desired succ fail m :
  CCompareExchangeWeak false sp name ptr expected desired succ fail m
    = AssertionFailure
  ↔ succ < fail.
Proof.
  unfold CCompareExchangeWeak. split.
  - intros H. destruct (Z.leb_spec fail succ) as [Hle|Hlt]; [|exact Hlt].
    exfalso. revert H.
    rewrite (bind_Done _ _ m m tt) by (apply assert_passes; right; lia).
    apply weak_not_AssertionFailure.
  - intros Hlt. apply bind_AssertionFailure, assert_aborts. lia.
Qed.

(** With [NDEBUG] the assertion is compiled out. *)
Lemma CompareExchangeStrong_NDEBUG name ptr expected desired succ fail m :
  CCompareExchangeStrong true name ptr expected desired succ fail m
  = atomic_compare_exchange_strong_explicit ptr expected desired succ fail m.
Proof. reflexivity. Qed.

(** On the enumerations, a load ordering is strictly stronger than a general
    ordering, in the order of the design notes, exactly when its raw value is
    the greater one. *)
Lemma spec_stronger_raw (succ : AtomicMemoryOrder) (fail : AtomicLoadMemoryOrder) :
  spec_stronger (asMemoryOrder fail) succ = true
  ↔ rawValue succ < loadRawValue fail.
Proof. destruct succ, fail; vm_compute; split; congruence. Qed.

(** C2.  In a build with assertions, a strong or weak compare-exchange of
    any instantiation stops in the assertion exactly when the failure
    ordering is strictly stronger than the success ordering; so it does for
    success = relaxed and failure = acquire, and it never does when the
    failure ordering is not stronger. *)
Theorem CompareExchange_assert_checks_precondition :
  ∀ (spurious : bool) (name : atomic_var) (ptr expected : pointer)
    (desired : Z) (succ : AtomicMemoryOrder) (fail : AtomicLoadMemoryOrder)
    (m : memory),
    (CCompareExchangeStrong false name ptr expected desired
       (rawValue succ) (loadRawValue fail) m = AssertionFailure
     ↔ spec_stronger (asMemoryOrder fail) succ = true)
    ∧ (CCompareExchangeWeak false spurious name ptr expected desired
         (rawValue succ) (loadRawValue fail) m = AssertionFailure
       ↔ spec_stronger (asMemoryOrder fail) succ = true).
Proof.
  intros. rewrite spec_stronger_raw. split.
  - apply CompareExchangeStrong_aborts_iff.
  - apply CompareExchangeWeak_aborts_iff.
Qed.

Lemma CompareExchange_assert_checks_precondition_witness :
  spec_stronger (asMemoryOrder LoadAcquire) Relaxed = true
  ∧ CCompareExchangeStrong false AtomicInt32 1%positive 2%positive 7
      AtomicMemoryOrderRelaxed AtomicLoadMemoryOrderAcquire
      (<[1%positive := 5]> {[2%positive := 5]}) = AssertionFailure
  ∧ CCompareExchangeWeak false false AtomicInt32 1%positive 2%positive 7
      AtomicMemoryOrderRelaxed AtomicLoadMemoryOrderAcquire
      (<[1%positive := 5]> {[2%positive := 5]}) = AssertionFailure
  ∧ spec_stronger (asMemoryOrder LoadAcquire) Release = false
  ∧ CCompareExchangeStrong false AtomicInt32 1%positive 2%positive 7
      AtomicMemoryOrderRelease AtomicLoadMemoryOrderAcquire
      (<[1%positive := 5]> {[2%positive := 5]}) ≠ AssertionFailure.
Proof.
  pose proof (CompareExchange_assert_checks_precondition false AtomicInt32
                1%positive 2%positive 7 Relaxed LoadAcquire
                (<[1%positive := 5]> {[2%positive := 5]})) as [Hs Hw].
  pose proof (CompareExchange_assert_checks_precondition false AtomicInt32
                1%positive 2%positive 7 Release LoadAcquire
                (<[1%positive := 5]> {[2%positive := 5]})) as [Hs' _].
  split; [reflexivity|]. split; [apply Hs; reflexivity|].
  split; [apply Hw; reflexivity|]. split; [reflexivity|].
  intros H. apply Hs' in H. discriminate H.
Defined.

(** C3, as stated, fails for success = release and failure = acquire: the
    two are not ordered, so "failure at most success" does not hold in the
    order of the design notes, yet neither function stops in the assertion
    and the strong form carries out the exchange. *)
Lemma assert_accepts_release_acquire :
  spec_strength_le (asMemoryOrder LoadAcquire) Release = false
  ∧ CCompareExchangeStrong false AtomicInt32 1%positive 2%positive 7
      (rawValue Release) (loadRawValue LoadAcquire)
      (<[1%positive := 5]> {[2%positive := 5]})
    = Done true (<[1%positive := 7]> {[2%positive := 5]})
  ∧ CCompareExchangeWeak false false AtomicInt32 1%positive 2%positive 7
      (rawValue Release) (loadRawValue LoadAcquire)
      (<[1%positive := 5]> {[2%positive := 5]})
    = Done true (<[1%positive := 7]> {[2%positive := 5]}).
Proof. repeat split; vm_compute; reflexivity. Qed.

(** C3, amended.  The assertion compares the raw enumeration values, relaxed
    = 0 up to seq_cst = 5, with [<=]: a call stops in it exactly when the raw
    value of the failure ordering is the greater one.  That total order
    agrees with "failure at most success" in the order of the design notes
    on every pair but (success = release, failure = acquire), which the
    assertion accepts. *)
Theorem CompareExchange_assert_compares_raw_values :
  ∀ (spurious : bool) (name : atomic_var) (ptr expected : pointer)
    (desired : Z) (succ : AtomicMemoryOrder) (fail : AtomicLoadMemoryOrder)
    (m : memory),
    (CCompareExchangeStrong false name ptr expected desired
       (rawValue succ) (loadRawValue fail) m = AssertionFailure
     ↔ rawValue succ < loadRawValue fail)
    ∧ (CCompareExchangeWeak false spurious name ptr expected desired
         (rawValue succ) (loadRawValue fail) m = AssertionFailure
       ↔ rawValue succ < loadRawValue fail)
    ∧ (loadRawValue fail <=? rawValue succ)
      = match succ, fail with
        | Release, LoadAcquire => true
        | _, _ => spec_strength_le (asMemoryOrder fail) succ
        end
    ∧ (rawValue Relaxed, rawValue Consume, rawValue Acquire,
       rawValue Release, rawValue Acqrel, rawValue Seqcst)
      = (0, 1, 2, 3, 4, 5).
Proof.
  intros. split; [apply CompareExchangeStrong_aborts_iff|].
  split; [apply CompareExchangeWeak_aborts_iff|].
  split; [destruct succ, fail; reflexivity|reflexivity].
Qed.

Lemma CompareExchange_assert_compares_raw_values_witness :
  CCompareExchangeStrong false AtomicUInt8 1%positive 2%positive 7
    (rawValue Consume) (loadRawValue LoadAcquire)
    (<[1%positive := 5]> {[2%positive := 5]}) = AssertionFailure
  ∧ CCompareExchangeStrong false AtomicUInt8 1%positive 2%positive 7
      (rawValue Release) (loadRawValue LoadAcquire)
      (<[1%positive := 5]> {[2%positive := 5]}) ≠ AssertionFailure.
Proof.
  split.
  - apply (CompareExchange_assert_compares_raw_values false AtomicUInt8
             1%positive 2%positive 7 Consume LoadAcquire). reflexivity.
  - intros H.
    apply (CompareExchange_assert_compares_raw_values false AtomicUInt8
             1%positive 2%positive 7 Release LoadAcquire) in H.
    discriminate H.
Defined.

(** ** Compare-exchange *)

(** The <stdatomic.h> strong form on initialised storage. *)
Lemma strong_equal obj expected desired success failure (m : memory) cur :
  m !! obj = Some cur → m !! expected = Some cur →
  atomic_compare_exchange_strong_explicit obj expected desired success failure m
  = Done true (<[obj := desired]> m).
Proof.
  intros Hobj Hexp. unfold atomic_compare_exchange_strong_explicit.
  rewrite (bind_Done _ _ _ _ _ (read_Some _ _ _ Hobj)).
  rewrite (bind_Done _ _ _ _ _ (read_Some _ _ _ Hexp)).
  rewrite Z.eqb_refl.
  rewrite (bind_Done _ _ _ _ _ (write_Some _ _ _ desired Hobj)).
  reflexivity.
Qed.

Lemma strong_different obj expected desired success failure (m : memory) cur exp :
  m !! obj = Some cur → m !! expected = Some exp → cur ≠ exp →
  atomic_compare_exchange_strong_explicit obj expected desired success failure m
  = Done false (<[expected := cur]> m).
Proof.
  intros Hobj Hexp Hne. unfold atomic_compare_exchange_strong_explicit.
  rewrite (bind_Done _ _ _ _ _ (read_Some _ _ _ Hobj)).
  rewrite (bind_Done _ _ _ _ _ (read_Some _ _ _ Hexp)).
  rewrite (proj2 (Z.eqb_neq cur exp) Hne).
  rewrite (bind_Done _ _ _ _ _ (write_Some _ _ _ cur Hexp)).
  reflexivity.
Qed.

(** Two pointers to objects with different contents are different
    pointers, so the write-back to [*expected] leaves the cell alone. *)
Lemma write_back_keeps_cell (ptr expected : pointer) (m : memory) cur exp :
  m !! ptr = Some cur → m !! expected = Some exp → cur ≠ exp →
  <[expected := cur]> m !! ptr = Some cur.
Proof.
  intros Hptr Hexp Hne.
  rewrite lookup_insert_ne; [exact Hptr|].
  intros ->. rewrite Hptr in Hexp. congruence.
Qed.

(** C4.  On a call that passes the ordering check, the strong form with
    [*expected] equal to the cell stores [desired] in the cell and returns
    true, always; with [*expected] different it returns false, leaves the
    cell as it was and stores the cell's value into [*expected]. *)
Theorem CompareExchangeStrong_spec :
  ∀ (NDEBUG : bool) (name : atomic_var) (ptr expected : pointer)
    (desired succ fail : Z) (m : memory) (cur exp : Z),
    NDEBUG = true ∨ fail <= succ →
    m !! ptr = Some cur →
    m !! expected = Some exp →
    (cur = exp →
       CCompareExchangeStrong NDEBUG name ptr expected desired succ fail m
         = Done true (<[ptr := desired]> m)
       ∧ <[ptr := desired]> m !! ptr = Some desired)
    ∧ (cur ≠ exp →
       CCompareExchangeStrong NDEBUG name ptr expected desired succ fail m
         = Done false (<[expected := cur]> m)
       ∧ <[expected := cur]> m !! ptr = Some cur
       ∧ <[expected := cur]> m !! expected = Some cur).
Proof.
  intros NDEBUG name ptr expected desired succ fail m cur exp Hord Hptr Hexp.
  assert (Hassert : assert NDEBUG (fail <=? succ) m = Done tt m).
  { apply assert_passes. destruct Hord as [->|Hle]; [left|right]; [done|lia]. }
  unfold CCompareExchangeStrong. rewrite (bind_Done _ _ _ _ _ Hassert).
  split.
  - intros <-. split; [|apply lookup_insert_eq].
    apply (strong_equal _ _ _ _ _ _ cur); assumption.
  - intros Hne. split; [|split].
    + apply (strong_different _ _ _ _ _ _ cur exp); assumption.
    + apply (write_back_keeps_cell _ _ _ _ exp); assumption.
    + apply lookup_insert_eq.
Qed.

Lemma CompareExchangeStrong_spec_witness :
  CCompareExchangeStrong false AtomicInt16 1%positive 2%positive 7
    AtomicMemoryOrderAcqrel AtomicLoadMemoryOrderAcquire
    (<[1%positive := 5]> {[2%positive := 5]})
  = Done true (<[1%positive := 7]> (<[1%positive := 5]> {[2%positive := 5]}))
  ∧ CCompareExchangeStrong false AtomicInt16 1%positive 2%positive 7
      AtomicMemoryOrderAcqrel AtomicLoadMemoryOrderAcquire
      (<[1%positive := 5]> {[2%positive := 6]})
    = Done false
        (<[2%positive := 5]> (<[1%positive := 5]> {[2%positive := 6]})).
Proof.
  split.
  - refine (proj1 (proj1 (CompareExchangeStrong_spec false AtomicInt16
      1%positive 2%positive 7 AtomicMemoryOrderAcqrel
      AtomicLoadMemoryOrderAcquire (<[1%positive := 5]> {[2%positive := 5]})
      5 5 _ _ _) _)); [right; vm_compute; discriminate|reflexivity..].
  - refine (proj1 (proj2 (CompareExchangeStrong_spec false AtomicInt16
      1%positive 2%positive 7 AtomicMemoryOrderAcqrel
      AtomicLoadMemoryOrderAcquire (<[1%positive := 5]> {[2%positive := 6]})
      5 6 _ _ _) _)); [right; vm_compute; discriminate|reflexivity..|discriminate].
Defined.

(** The <stdatomic.h> weak form on initialised storage: without a spurious
    failure it is the strong form; a spurious failure returns false and
    stores the cell's value into [*expected]. *)
Lemma weak_not_spurious obj expected desired success failure (m : memory) :
  atomic_compare_exchange_weak_explicit false obj expected desired
    success failure m
  = atomic_compare_exchange_strong_explicit obj expected desired
      success failure m.
Proof.
  unfold atomic_compare_exchange_weak_explicit,
    atomic_compare_exchange_strong_explicit, mbind, M_bind.
  destruct (read obj m) as [cur m1| |]; [|reflexivity..].
  destruct (read expected m1) as [exp m2| |]; [|reflexivity..].
  simpl negb. rewrite andb_true_r. reflexivity.
Qed.

Lemma weak_failure sp obj expected desired success failure (m : memory) cur exp :
  m !! obj = Some cur → m !! expected = Some exp →
  (cur =? exp) && negb sp = false →
  atomic_compare_exchange_weak_explicit sp obj expected desired
    success failure m
  = Done false (<[expected := cur]> m).
Proof.
  intros Hobj Hexp Hcond. unfold atomic_compare_exchange_weak_explicit.
  rewrite (bind_Done _ _ _ _ _ (read_Some _ _ _ Hobj)).
  rewrite (bind_Done _ _ _ _ _ (read_Some _ _ _ Hexp)).
  rewrite Hcond.
  rewrite (bind_Done _ _ _ _ _ (write_Some _ _ _ cur Hexp)).
  reflexivity.
Qed.

Section WEAK.

Context (NDEBUG : bool) (name : atomic_var) (ptr expected : pointer).
Context (desired succ fail : Z).
Context (Horder : NDEBUG = true ∨ fail <= succ).

Lemma CompareExchange_assert_passes (m : memory) :
  assert NDEBUG (fail <=? succ) m = Done tt m.
Proof.
  apply assert_passes.
  destruct Horder as [->|Hle]; [left|right]; [reflexivity|lia].
Qed.

(** A spurious failure on a matching cell leaves the storage as it was:
    what is stored back into [*expected] is what was there. *)
Lemma CompareExchangeWeak_spurious (m : memory) (cur : Z) :
  m !! ptr = Some cur → m !! expected = Some cur →
  CCompareExchangeWeak NDEBUG true name ptr expected desired succ fail m
  = Done false m.
Proof.
  intros Hptr Hexp. unfold CCompareExchangeWeak.
  rewrite (bind_Done _ _ _ _ _ (CompareExchange_assert_passes m)).
  rewrite (weak_failure true _ _ _ _ _ _ cur cur Hptr Hexp)
    by apply andb_false_r.
  rewrite insert_id by exact Hexp. reflexivity.
Qed.

Lemma CompareExchangeWeak_not_spurious (m : memory) :
  CCompareExchangeWeak NDEBUG false name ptr expected desired succ fail m
  = CCompareExchangeStrong NDEBUG name ptr expected desired succ fail m.
Proof.
  unfold CCompareExchangeWeak, CCompareExchangeStrong.
  rewrite !(bind_Done _ _ _ _ _ (CompareExchange_assert_passes m)).
  apply weak_not_spurious.
Qed.

(** The retry loop on a matching cell: spurious failures change nothing,
    and the first attempt the platform lets through stores [desired]. *)
Lemma retry_succeeds (schedule : list bool) (m : memory) (cur : Z) :
  m !! ptr = Some cur → m !! expected = Some cur →
  false ∈ schedule →
  CompareExchangeWeak_retry NDEBUG schedule name ptr expected desired
    succ fail m
  = Done true (<[ptr := desired]> m).
Proof.
  intros Hptr Hexp. induction schedule as [|sp rest IH]; intros Hin.
  - apply elem_of_nil in Hin. destruct Hin.
  - cbn [CompareExchangeWeak_retry]. destruct sp.
    + rewrite (bind_Done _ _ _ _ _
                 (CompareExchangeWeak_spurious m cur Hptr Hexp)).
      apply IH. apply elem_of_cons in Hin as [Hin|Hin];
        [discriminate Hin|exact Hin].
    + rewrite (bind_Done _ _ m (<[ptr := desired]> m) true); [reflexivity|].
      rewrite CompareExchangeWeak_not_spurious.
      unfold CCompareExchangeStrong.
      rewrite (bind_Done _ _ _ _ _ (CompareExchange_assert_passes m)).
      apply (strong_equal _ _ _ _ _ _ cur); assumption.
Qed.

(** Without the platform ever letting an attempt through, the loop runs
    out of attempts with the storage untouched. *)
Lemma retry_starves (n : nat) (m : memory) (cur : Z) :
  m !! ptr = Some cur → m !! expected = Some cur →
  CompareExchangeWeak_retry NDEBUG (replicate n true) name ptr expected
    desired succ fail m
  = Done false m.
Proof.
  intros Hptr Hexp. induction n as [|n IH]; [reflexivity|].
  cbn [replicate CompareExchangeWeak_retry].
  rewrite (bind_Done _ _ _ _ _
             (CompareExchangeWeak_spurious m cur Hptr Hexp)).
  exact IH.
Qed.

End WEAK.

(** The weak form on a call that passes the ordering check.  It is the
    strong form unless the platform makes the attempt fail spuriously; a
    spurious failure on a matching cell returns false and changes nothing;
    success is never reported when the cell differs from [*expected].  A
    retry loop on a matching cell succeeds at the first attempt the platform
    lets through; whether there is such an attempt is the platform's to
    decide ([retry_starves]), and nothing in the header bears on it. *)
Lemma CompareExchangeWeak_on_checked_call :
  ∀ (NDEBUG : bool) (name : atomic_var) (ptr expected : pointer)
    (desired succ fail : Z) (m : memory) (cur exp : Z),
    NDEBUG = true ∨ fail <= succ →
    m !! ptr = Some cur →
    m !! expected = Some exp →
    CCompareExchangeWeak NDEBUG false name ptr expected desired succ fail m
      = CCompareExchangeStrong NDEBUG name ptr expected desired succ fail m
    ∧ (cur = exp →
       CCompareExchangeWeak NDEBUG true name ptr expected desired succ fail m
         = Done false m)
    ∧ (cur ≠ exp →
       ∀ spurious : bool,
         CCompareExchangeWeak NDEBUG spurious name ptr expected desired
           succ fail m
         = Done false (<[expected := cur]> m)
         ∧ <[expected := cur]> m !! ptr = Some cur)
    ∧ (cur = exp →
       ∀ schedule : list bool,
         false ∈ schedule →
         CompareExchangeWeak_retry NDEBUG schedule name ptr expected desired
           succ fail m
         = Done true (<[ptr := desired]> m)
         ∧ <[ptr := desired]> m !! ptr = Some desired).
Proof.
  intros NDEBUG name ptr expected desired succ fail m cur exp Hord Hptr Hexp.
  split; [apply CompareExchangeWeak_not_spurious; exact Hord|].
  split; [|split].
  - intros <-. apply (CompareExchangeWeak_spurious _ _ _ _ _ _ _ Hord m cur);
      assumption.
  - intros Hne spurious. split.
    + unfold CCompareExchangeWeak.
      rewrite (bind_Done _ _ _ _ _
                 (CompareExchange_assert_passes _ _ _ Hord m)).
      apply (weak_failure _ _ _ _ _ _ _ cur exp); [assumption..|].
      rewrite (proj2 (Z.eqb_neq cur exp) Hne). reflexivity.
    + apply (write_back_keeps_cell _ _ _ _ exp); assumption.
  - intros <- schedule Hin. split; [|apply lookup_insert_eq].
    apply (retry_succeeds _ _ _ _ _ _ _ Hord schedule m cur); assumption.
Qed.

(** ** Wrap-around arithmetic *)

Lemma wrap_unsigned_in_range (bits v : Z) :
  0 <= bits → in_range (RUnsigned bits) (wrap (RUnsigned bits) v).
Proof.
  intros Hb. simpl. apply Z.mod_pos_bound. apply Z.pow_pos_nonneg; lia.
Qed.

Lemma wrap_signed_in_range (bits v : Z) :
  0 < bits → in_range (RSigned bits) (wrap (RSigned bits) v).
Proof.
  intros Hb. simpl.
  assert (Hpow : 2 ^ bits = 2 * 2 ^ (bits - 1)).
  { rewrite <- Z.pow_succ_r by lia. f_equal. lia. }
  assert (Hhalf : 0 < 2 ^ (bits - 1)) by (apply Z.pow_pos_nonneg; lia).
  pose proof (Z.mod_pos_bound (v + 2 ^ (bits - 1)) (2 ^ bits)) as Hmod.
  lia.
Qed.

Lemma wrap_congruent (r : repr) (v : Z) :
  r ≠ RBool → wrap r v mod 2 ^ width r = v mod 2 ^ width r.
Proof.
  destruct r as [|bits|bits]; intros Hr; [congruence| |]; simpl.
  - rewrite Zminus_mod_idemp_l. f_equal. lia.
  - apply Zmod_mod.
Qed.

(** An in-range value is its own conversion. *)
Lemma wrap_id (r : repr) (v : Z) :
  0 < width r → in_range r v → wrap r v = v.
Proof.
  destruct r as [|bits|bits]; simpl; intros Hb Hv.
  - destruct (Z.eqb_spec v 0); lia.
  - assert (Hpow : 2 ^ bits = 2 * 2 ^ (bits - 1)).
    { rewrite <- Z.pow_succ_r by lia. f_equal. lia. }
    rewrite Z.mod_small by lia. lia.
  - apply Z.mod_small. exact Hv.
Qed.

Lemma integer_repr (dm : data_model) (name : atomic_var) :
  macro_of name = CATOMIC_INTEGER →
  ∃ bits, 0 < bits
    ∧ (repr_of dm (c_type_of name) = RSigned bits
       ∨ repr_of dm (c_type_of name) = RUnsigned bits).
Proof.
  destruct name, dm; simpl; intros H; try discriminate H;
    eexists; (split; [|first [left; reflexivity | right; reflexivity]]); lia.
Qed.

Lemma integer_wrap_in_range (dm : data_model) (name : atomic_var) (v : Z) :
  macro_of name = CATOMIC_INTEGER →
  in_range (repr_of dm (c_type_of name)) (wrap (repr_of dm (c_type_of name)) v).
Proof.
  intros H. destruct (integer_repr dm name H) as (bits & Hb & [-> | ->]).
  - apply wrap_signed_in_range; exact Hb.
  - apply wrap_unsigned_in_range; lia.
Qed.

Lemma integer_wrap_congruent (dm : data_model) (name : atomic_var) (v : Z) :
  macro_of name = CATOMIC_INTEGER →
  wrap (repr_of dm (c_type_of name)) v
    mod 2 ^ width (repr_of dm (c_type_of name))
  = v mod 2 ^ width (repr_of dm (c_type_of name)).
Proof.
  intros H. apply wrap_congruent.
  destruct (integer_repr dm name H) as (bits & _ & [-> | ->]); discriminate.
Qed.

Lemma atomic_fetch_Some op r obj operand order (m : memory) old :
  m !! obj = Some old →
  atomic_fetch op r obj operand order m
  = Done old (<[obj := wrap r (op old operand)]> m).
Proof.
  intros Hobj. unfold atomic_fetch.
  rewrite (bind_Done _ _ _ _ _ (read_Some _ _ _ Hobj)).
  rewrite (bind_Done _ _ _ _ _ (write_Some _ _ _ _ Hobj)).
  reflexivity.
Qed.

(** C6.  For every integer instantiation, FetchAdd and FetchSub return the
    value the cell held and leave in the cell the value of the type that is
    congruent to the sum, or the difference, modulo 2 to the width; an
    unsigned 8-bit cell holding 250 returns 250 to FetchAdd of 10 and then
    holds 4. *)
Theorem FetchAdd_FetchSub_wrap_around :
  (∀ (dm : data_model) (name : atomic_var) (ptr : pointer)
     (value order : Z) (m : memory) (old : Z),
     macro_of name = CATOMIC_INTEGER →
     m !! ptr = Some old →
     ∃ sum diff : Z,
       CFetchAdd dm name ptr value order m = Done old (<[ptr := sum]> m)
       ∧ in_range (repr_of dm (c_type_of name)) sum
       ∧ sum mod 2 ^ width (repr_of dm (c_type_of name))
         = (old + value) mod 2 ^ width (repr_of dm (c_type_of name))
       ∧ CFetchSub dm name ptr value order m = Done old (<[ptr := diff]> m)
       ∧ in_range (repr_of dm (c_type_of name)) diff
       ∧ diff mod 2 ^ width (repr_of dm (c_type_of name))
         = (old - value) mod 2 ^ width (repr_of dm (c_type_of name)))
  ∧ (∀ (dm : data_model) (ptr : pointer) (order : Z) (m : memory),
       m !! ptr = Some 250 →
       CFetchAdd dm AtomicUInt8 ptr 10 order m = Done 250 (<[ptr := 4]> m)
       ∧ <[ptr := 4]> m !! ptr = Some 4).
Proof.
  split.
  - intros dm name ptr value order m old Hint Hptr.
    exists (wrap (repr_of dm (c_type_of name)) (old + value)),
           (wrap (repr_of dm (c_type_of name)) (old - value)).
    split; [apply atomic_fetch_Some; exact Hptr|].
    split; [apply integer_wrap_in_range; exact Hint|].
    split; [apply integer_wrap_congruent; exact Hint|].
    split; [apply atomic_fetch_Some; exact Hptr|].
    split; [apply integer_wrap_in_range; exact Hint|].
    apply integer_wrap_congruent; exact Hint.
  - intros dm ptr order m Hptr. split; [|apply lookup_insert_eq].
    unfold CFetchAdd, atomic_fetch_add_explicit.
    rewrite (atomic_fetch_Some _ _ _ _ _ _ 250 Hptr). reflexivity.
Qed.

Lemma FetchAdd_FetchSub_wrap_around_witness :
  CFetchAdd LP64 AtomicUInt8 1%positive 10 AtomicMemoryOrderSeqcst
    {[1%positive := 250]}
  = Done 250 (<[1%positive := 4]> {[1%positive := 250]})
  ∧ ∃ diff : Z,
      CFetchSub ILP32 AtomicInt 1%positive 1 AtomicMemoryOrderRelaxed
        {[1%positive := - 2147483648]}
      = Done (- 2147483648) (<[1%positive := diff]> {[1%positive := - 2147483648]})
      ∧ in_range (RSigned 32) diff
      ∧ diff mod 2 ^ 32 = (- 2147483648 - 1) mod 2 ^ 32.
Proof.
  split.
  - refine (proj1 (proj2 FetchAdd_FetchSub_wrap_around LP64 1%positive
                     AtomicMemoryOrderSeqcst {[1%positive := 250]} _)).
    reflexivity.
  - destruct (proj1 FetchAdd_FetchSub_wrap_around ILP32 AtomicInt 1%positive
                1 AtomicMemoryOrderRelaxed {[1%positive := - 2147483648]}
                (- 2147483648))
      as (sum & diff & _ & _ & _ & Hsub & Hrange & Hmod);
      [reflexivity..|].
    exists diff. split; [exact Hsub|]. split; [exact Hrange|exact Hmod].
Defined.

(** ** Initialize, Load, Store, Exchange *)

Lemma Load_Some name ptr order (m : memory) (v : Z) :
  m !! ptr = Some v → CLoad name ptr order m = Done v m.
Proof. apply read_Some. Qed.

Lemma Exchange_Some name ptr value order (m : memory) (old : Z) :
  m !! ptr = Some old →
  CExchange name ptr value order m = Done old (<[ptr := value]> m).
Proof.
  intros Hptr. unfold CExchange, atomic_exchange_explicit.
  rewrite (bind_Done _ _ _ _ _ (read_Some _ _ _ Hptr)).
  rewrite (bind_Done _ _ _ _ _ (write_Some _ _ _ _ Hptr)).
  reflexivity.
Qed.

Lemma Store_Some name ptr value order (m : memory) (old : Z) :
  m !! ptr = Some old →
  CStore name ptr value order m = Done tt (<[ptr := value]> m).
Proof. apply write_Some. Qed.

(** C7.  Whatever the storage held, Initialize with [v1] followed at once
    by a relaxed Load returns [v1]. *)
Theorem Initialize_then_Load :
  ∀ (name : atomic_var) (ptr : pointer) (v1 : Z) (m : memory),
    CInitialize name ptr v1 m = Done tt (<[ptr := v1]> m)
    ∧ CLoad name ptr AtomicLoadMemoryOrderRelaxed (<[ptr := v1]> m)
      = Done v1 (<[ptr := v1]> m)
    ∧ (CInitialize name ptr v1;;
       CLoad name ptr AtomicLoadMemoryOrderRelaxed) m
      = Done v1 (<[ptr := v1]> m).
Proof.
  intros name ptr v1 m.
  assert (Hload : CLoad name ptr AtomicLoadMemoryOrderRelaxed (<[ptr := v1]> m)
                  = Done v1 (<[ptr := v1]> m)).
  { apply Load_Some, lookup_insert_eq. }
  split; [reflexivity|]. split; [exact Hload|].
  rewrite (bind_Done _ _ m (<[ptr := v1]> m) tt) by reflexivity.
  exact Hload.
Qed.

(** C8.  Exchange with any ordering returns the value the cell holds, which
    is the one most recently put there by Initialize, Store or Exchange,
    and a relaxed Load afterwards returns the value exchanged in. *)
Theorem Exchange_spec :
  ∀ (name : atomic_var) (ptr : pointer) (v2 : Z) (order : AtomicMemoryOrder)
    (m : memory) (old : Z),
    m !! ptr = Some old →
    (∀ v1 : Z,
       (CInitialize name ptr v1;;
        CExchange name ptr v2 (rawValue order)) m
       = Done v1 (<[ptr := v2]> (<[ptr := v1]> m))
       ∧ (CStore name ptr v1 AtomicStoreMemoryOrderRelaxed;;
          CExchange name ptr v2 (rawValue order)) m
         = Done v1 (<[ptr := v2]> (<[ptr := v1]> m))
       ∧ (CExchange name ptr v1 (rawValue order);;
          CExchange name ptr v2 (rawValue order)) m
         = Done v1 (<[ptr := v2]> (<[ptr := v1]> m)))
    ∧ CExchange name ptr v2 (rawValue order) m = Done old (<[ptr := v2]> m)
    ∧ (CExchange name ptr v2 (rawValue order);;
       CLoad name ptr AtomicLoadMemoryOrderRelaxed) m
      = Done v2 (<[ptr := v2]> m).
Proof.
  intros name ptr v2 order m old Hptr.
  assert (Hnext : ∀ v1, CExchange name ptr v2 (rawValue order) (<[ptr := v1]> m)
                        = Done v1 (<[ptr := v2]> (<[ptr := v1]> m))).
  { intros v1. apply Exchange_Some, lookup_insert_eq. }
  split; [|split].
  - intros v1. split; [|split].
    + rewrite (bind_Done _ _ m (<[ptr := v1]> m) tt) by reflexivity.
      apply Hnext.
    + rewrite (bind_Done _ _ m (<[ptr := v1]> m) tt)
        by (apply (Store_Some _ _ _ _ _ old); exact Hptr).
      apply Hnext.
    + rewrite (bind_Done _ _ m (<[ptr := v1]> m) old)
        by (apply Exchange_Some; exact Hptr).
      apply Hnext.
  - apply Exchange_Some; exact Hptr.
  - rewrite (bind_Done _ _ m (<[ptr := v2]> m) old)
      by (apply Exchange_Some; exact Hptr).
    apply Load_Some, lookup_insert_eq.
Qed.

Lemma Exchange_spec_witness :
  CExchange AtomicBool 3%positive 1 AtomicMemoryOrderAcqrel {[3%positive := 0]}
  = Done 0 (<[3%positive := 1]> {[3%positive := 0]})
  ∧ (CExchange AtomicBool 3%positive 1 AtomicMemoryOrderAcqrel;;
     CLoad AtomicBool 3%positive AtomicLoadMemoryOrderRelaxed)
      {[3%positive := 0]}
    = Done 1 (<[3%positive := 1]> {[3%positive := 0]}).
Proof.
  destruct (Exchange_spec AtomicBool 3%positive 1 Acqrel {[3%positive := 0]} 0)
    as (_ & Hx & Hload); [reflexivity|].
  split; [exact Hx|exact Hload].
Defined.

(** * Further properties of the operation family *)

(** ** Ranges, bit by bit *)

(** A value fits in [n] unsigned bits exactly when it has no bit set from
    position [n] on. *)
Lemma unsigned_range_bits (n v : Z) :
  0 <= n →
  0 <= v < 2 ^ n ↔ ∀ i, n <= i → Z.testbit v i = false.
Proof.
  intros Hn. split.
  - intros Hv i Hi. rewrite <- (Z.mod_small v (2 ^ n)) by exact Hv.
    apply Z.mod_pow2_bits_high. lia.
  - intros Hbits.
    assert (Hv : v = v mod 2 ^ n).
    { apply Z.bits_inj'. intros i Hi.
      destruct (Z.lt_ge_cases i n) as [Hlt|Hge].
      - rewrite Z.mod_pow2_bits_low by exact Hlt. reflexivity.
      - rewrite Z.mod_pow2_bits_high by lia. apply Hbits; exact Hge. }
    rewrite Hv. apply Z.mod_pos_bound. apply Z.pow_pos_nonneg; lia.
Qed.

(** A value fits in two's complement with sign bit [h] exactly when every
    bit from [h] on repeats bit [h]. *)
Lemma signed_range_bits (h v : Z) :
  0 <= h →
  - 2 ^ h <= v < 2 ^ h ↔ ∀ i, h <= i → Z.testbit v i = Z.testbit v h.
Proof.
  intros Hh.
  assert (Hpos : 0 < 2 ^ h) by (apply Z.pow_pos_nonneg; lia).
  assert (Hnot : Z.lnot v = - v - 1) by (unfold Z.lnot; lia).
  split.
  - intros Hv i Hi. destruct (Z.lt_ge_cases v 0) as [Hneg|Hnonneg].
    + assert (Hhigh : ∀ j, h <= j → Z.testbit v j = true).
      { intros j Hj. apply negb_false_iff.
        rewrite <- Z.lnot_spec by lia.
        apply (proj1 (unsigned_range_bits h (Z.lnot v) Hh)); [lia|exact Hj]. }
      rewrite !Hhigh by lia. reflexivity.
    + assert (Hhigh : ∀ j, h <= j → Z.testbit v j = false).
      { apply (unsigned_range_bits h v Hh). lia. }
      rewrite !Hhigh by lia. reflexivity.
  - intros Hbits. destruct (Z.lt_ge_cases v 0) as [Hneg|Hnonneg].
    + assert (Hw : 0 <= Z.lnot v < 2 ^ h); [|lia].
      apply (unsigned_range_bits h (Z.lnot v) Hh). intros i Hi.
      rewrite Z.lnot_spec by lia. apply negb_false_iff.
      rewrite (Hbits i Hi).
      rewrite <- (Hbits (Z.max h (Z.log2 (Z.lnot v) + 1))) by lia.
      apply negb_false_iff. rewrite <- Z.lnot_spec by lia.
      apply Z.bits_above_log2; lia.
    + split; [lia|].
      apply (unsigned_range_bits h v Hh). intros i Hi.
      rewrite (Hbits i Hi).
      rewrite <- (Hbits (Z.max h (Z.log2 v + 1))) by lia.
      apply Z.bits_above_log2; lia.
Qed.

(** The range of every integer type is closed under an operator that acts
    on each bit position separately and maps two clear bits to a clear
    bit. *)
Lemma bitwise_in_range (op : Z → Z → Z) (f : bool → bool → bool)
    (r : repr) (a b : Z) :
  (∀ x y i, Z.testbit (op x y) i = f (Z.testbit x i) (Z.testbit y i)) →
  f false false = false →
  r ≠ RBool → 0 < width r →
  in_range r a → in_range r b → in_range r (op a b).
Proof.
  intros Hspec Hf Hr Hw. destruct r as [|bits|bits]; [congruence| |]; simpl in *.
  - intros Ha Hb.
    apply (signed_range_bits (bits - 1)); [lia|]. intros i Hi.
    rewrite !Hspec.
    rewrite (proj1 (signed_range_bits (bits - 1) a ltac:(lia)) Ha i Hi).
    rewrite (proj1 (signed_range_bits (bits - 1) b ltac:(lia)) Hb i Hi).
    reflexivity.
  - intros Ha Hb.
    apply (unsigned_range_bits bits); [lia|]. intros i Hi.
    rewrite Hspec.
    rewrite (proj1 (unsigned_range_bits bits a ltac:(lia)) Ha i Hi).
    rewrite (proj1 (unsigned_range_bits bits b ltac:(lia)) Hb i Hi).
    exact Hf.
Qed.

Lemma bool_cases (v : Z) : in_range RBool v → v = 0 ∨ v = 1.
Proof. simpl. lia. Qed.

Lemma positive_width (dm : data_model) (name : atomic_var) :
  0 < width (repr_of dm (c_type_of name)).
Proof. destruct name, dm; simpl; lia. Qed.

Lemma land_in_range dm name a b :
  in_range (repr_of dm (c_type_of name)) a →
  in_range (repr_of dm (c_type_of name)) b →
  in_range (repr_of dm (c_type_of name)) (Z.land a b).
Proof.
  intros Ha Hb. pose proof (positive_width dm name) as Hw.
  destruct (repr_of dm (c_type_of name)) eqn:E.
  - destruct (bool_cases a Ha) as [-> | ->], (bool_cases b Hb) as [-> | ->];
      vm_compute; split; discriminate.
  - apply (bitwise_in_range Z.land andb);
      [intros; apply Z.land_spec|reflexivity|discriminate|assumption..].
  - apply (bitwise_in_range Z.land andb);
      [intros; apply Z.land_spec|reflexivity|discriminate|assumption..].
Qed.

Lemma lor_in_range dm name a b :
  in_range (repr_of dm (c_type_of name)) a →
  in_range (repr_of dm (c_type_of name)) b →
  in_range (repr_of dm (c_type_of name)) (Z.lor a b).
Proof.
  intros Ha Hb. pose proof (positive_width dm name) as Hw.
  destruct (repr_of dm (c_type_of name)) eqn:E.
  - destruct (bool_cases a Ha) as [-> | ->], (bool_cases b Hb) as [-> | ->];
      vm_compute; split; discriminate.
  - apply (bitwise_in_range Z.lor orb);
      [intros; apply Z.lor_spec|reflexivity|discriminate|assumption..].
  - apply (bitwise_in_range Z.lor orb);
      [intros; apply Z.lor_spec|reflexivity|discriminate|assumption..].
Qed.

Lemma lxor_in_range dm name a b :
  in_range (repr_of dm (c_type_of name)) a →
  in_range (repr_of dm (c_type_of name)) b →
  in_range (repr_of dm (c_type_of name)) (Z.lxor a b).
Proof.
  intros Ha Hb. pose proof (positive_width dm name) as Hw.
  destruct (repr_of dm (c_type_of name)) eqn:E.
  - destruct (bool_cases a Ha) as [-> | ->], (bool_cases b Hb) as [-> | ->];
      vm_compute; split; discriminate.
  - apply (bitwise_in_range Z.lxor xorb);
      [intros; apply Z.lxor_spec|reflexivity|discriminate|assumption..].
  - apply (bitwise_in_range Z.lxor xorb);
      [intros; apply Z.lxor_spec|reflexivity|discriminate|assumption..].
Qed.

(** ** FetchAnd, FetchOr, FetchXor *)

(** X1.  On a cell and an operand that are values of the type, FetchAnd,
    FetchOr and FetchXor return the value the cell held and leave in the
    cell exactly the bitwise and, or, exclusive or of the two, which is
    again a value of the type; nothing is lost to a conversion.  This holds
    of every instantiation, [AtomicBool] included. *)
Theorem FetchBitwise_exact :
  ∀ (dm : data_model) (name : atomic_var) (ptr : pointer)
    (value order : Z) (m : memory) (old : Z),
    m !! ptr = Some old →
    in_range (repr_of dm (c_type_of name)) old →
    in_range (repr_of dm (c_type_of name)) value →
    (CFetchAnd dm name ptr value order m
       = Done old (<[ptr := Z.land old value]> m)
     ∧ in_range (repr_of dm (c_type_of name)) (Z.land old value))
    ∧ (CFetchOr dm name ptr value order m
         = Done old (<[ptr := Z.lor old value]> m)
       ∧ in_range (repr_of dm (c_type_of name)) (Z.lor old value))
    ∧ (CFetchXor dm name ptr value order m
         = Done old (<[ptr := Z.lxor old value]> m)
       ∧ in_range (repr_of dm (c_type_of name)) (Z.lxor old value)).
Proof.
  intros dm name ptr value order m old Hptr Hold Hvalue.
  pose proof (positive_width dm name) as Hw.
  pose proof (land_in_range dm name old value Hold Hvalue) as Hand.
  pose proof (lor_in_range dm name old value Hold Hvalue) as Hor.
  pose proof (lxor_in_range dm name old value Hold Hvalue) as Hxor.
  repeat split; try assumption.
  - unfold CFetchAnd, atomic_fetch_and_explicit.
    rewrite (atomic_fetch_Some _ _ _ _ _ _ old Hptr).
    rewrite wrap_id by assumption. reflexivity.
  - unfold CFetchOr, atomic_fetch_or_explicit.
    rewrite (atomic_fetch_Some _ _ _ _ _ _ old Hptr).
    rewrite wrap_id by assumption. reflexivity.
  - unfold CFetchXor, atomic_fetch_xor_explicit.
    rewrite (atomic_fetch_Some _ _ _ _ _ _ old Hptr).
    rewrite wrap_id by assumption. reflexivity.
Qed.

Lemma FetchBitwise_exact_witness :
  CFetchXor LP64 AtomicUInt8 1%positive 6 AtomicMemoryOrderRelaxed
    {[1%positive := 10]}
  = Done 10 (<[1%positive := 12]> {[1%positive := 10]})
  ∧ CFetchAnd ILP32 AtomicInt16 1%positive 255 AtomicMemoryOrderSeqcst
      {[1%positive := -2]}
    = Done (-2) (<[1%positive := 254]> {[1%positive := -2]})
  ∧ CFetchOr LP64 AtomicBool 1%positive 1 AtomicMemoryOrderAcqrel
      {[1%positive := 0]}
    = Done 0 (<[1%positive := 1]> {[1%positive := 0]}).
Proof.
  split; [|split].
  - refine (proj1 (proj2 (proj2 (FetchBitwise_exact LP64 AtomicUInt8
      1%positive 6 AtomicMemoryOrderRelaxed {[1%positive := 10]} 10 _ _ _))));
      [reflexivity|simpl; lia..].
  - refine (proj1 (proj1 (FetchBitwise_exact ILP32 AtomicInt16
      1%positive 255 AtomicMemoryOrderSeqcst {[1%positive := -2]} (-2) _ _ _)));
      [reflexivity|simpl; lia..].
  - refine (proj1 (proj1 (proj2 (FetchBitwise_exact LP64 AtomicBool
      1%positive 1 AtomicMemoryOrderAcqrel {[1%positive := 0]} 0 _ _ _))));
      [reflexivity|simpl; lia..].
Defined.

(** ** What a completed compare-exchange tells the caller *)

Ltac run_compare_exchange H :=
  unfold CCompareExchangeStrong, CCompareExchangeWeak, assert,
    atomic_compare_exchange_strong_explicit,
    atomic_compare_exchange_weak_explicit, mbind, M_bind, read, write,
    mret, M_ret in H.

Lemma CompareExchangeWeak_completed NDEBUG sp name ptr expected desired
    succ fail (m m' : memory) (ok : bool) :
  CCompareExchangeWeak NDEBUG sp name ptr expected desired succ fail m
    = Done ok m' →
  ∃ cur exp : Z,
    m !! ptr = Some cur ∧ m !! expected = Some exp
    ∧ (NDEBUG = true ∨ fail <= succ)
    ∧ if ok
      then cur = exp ∧ sp = false ∧ m' = <[ptr := desired]> m
      else (cur ≠ exp ∨ sp = true) ∧ m' = <[expected := cur]> m.
Proof.
  intros H. run_compare_exchange H.
  destruct (NDEBUG || (fail <=? succ)) eqn:Hassert; [|discriminate H].
  destruct (m !! ptr) as [cur|] eqn:Hptr; [|discriminate H].
  destruct (m !! expected) as [exp|] eqn:Hexp; [|discriminate H].
  exists cur, exp. split; [reflexivity|]. split; [reflexivity|]. split.
  { apply orb_true_iff in Hassert as [->|Hle]; [left; reflexivity|right; lia]. }
  destruct (Z.eqb_spec cur exp) as [Heq|Hne], sp; simpl in H.
  - rewrite Hexp in H. injection H as <- <-. auto.
  - rewrite Hptr in H. injection H as <- <-. auto.
  - rewrite Hexp in H. injection H as <- <-. auto.
  - rewrite Hexp in H. injection H as <- <-. auto.
Qed.

(** X2.  On an initialised cell and an initialised [*expected], a strong or
    weak compare-exchange that returns has passed the ordering check.  If it
    returned true, the cell was equal to [*expected] and now holds
    [desired], and [*expected] is as before unless it is the cell itself; if
    it returned false, the cell is as before and [*expected] now holds the
    cell's value.  A false from the strong form means the two differed. *)
Theorem CompareExchange_completed :
  ∀ (NDEBUG spurious : bool) (name : atomic_var) (ptr expected : pointer)
    (desired succ fail : Z) (m m' : memory) (ok : bool) (cur exp : Z),
    m !! ptr = Some cur →
    m !! expected = Some exp →
    (CCompareExchangeStrong NDEBUG name ptr expected desired succ fail m
       = Done ok m'
     ∨ CCompareExchangeWeak NDEBUG spurious name ptr expected desired
         succ fail m = Done ok m') →
    (NDEBUG = true ∨ fail <= succ)
    ∧ (ok = true →
       cur = exp ∧ m' !! ptr = Some desired
       ∧ (expected ≠ ptr → m' !! expected = Some exp))
    ∧ (ok = false →
       m' !! ptr = Some cur ∧ m' !! expected = Some cur)
    ∧ (CCompareExchangeStrong NDEBUG name ptr expected desired succ fail m
         = Done false m' → cur ≠ exp).
Proof.
  intros NDEBUG spurious name ptr expected desired succ fail m m' ok cur exp
    Hptr Hexp H.
  assert (Hweak : ∃ sp, CCompareExchangeWeak NDEBUG sp name ptr expected
                          desired succ fail m = Done ok m').
  { destruct H as [H|H]; [exists false|exists spurious; exact H].
    assert (Hord : NDEBUG = true ∨ fail <= succ).
    { unfold CCompareExchangeStrong, assert, mbind, M_bind in H.
      destruct (NDEBUG || (fail <=? succ)) eqn:Hassert; [|discriminate H].
      apply orb_true_iff in Hassert as [->|Hle]; [left; reflexivity|right; lia]. }
    rewrite CompareExchangeWeak_not_spurious by exact Hord. exact H. }
  destruct Hweak as [sp Hweak].
  destruct (CompareExchangeWeak_completed _ _ _ _ _ _ _ _ _ _ _ Hweak)
    as (cur' & exp' & Hptr' & Hexp' & Hord & Hok).
  rewrite Hptr in Hptr'. injection Hptr' as <-.
  rewrite Hexp in Hexp'. injection Hexp' as <-.
  split; [exact Hord|]. split; [|split].
  - intros ->. destruct Hok as (-> & _ & ->).
    split; [reflexivity|]. split; [apply lookup_insert_eq|].
    intros Hne. rewrite lookup_insert_ne by congruence. exact Hexp.
  - intros ->. destruct Hok as (Hwhy & ->). split; [|apply lookup_insert_eq].
    destruct (decide (expected = ptr)) as [->|Hne].
    + apply lookup_insert_eq.
    + rewrite lookup_insert_ne by exact Hne. exact Hptr.
  - intros Hstrong Heq. subst exp.
    rewrite <- (CompareExchangeWeak_not_spurious _ name ptr expected desired
                  succ fail Hord m) in Hstrong.
    apply CompareExchangeWeak_completed in Hstrong
      as (cur' & exp' & Hptr' & Hexp' & _ & [[Hne|Hsp] _]).
    + rewrite Hptr in Hptr'. rewrite Hexp in Hexp'. congruence.
    + discriminate Hsp.
Qed.

Lemma CompareExchange_completed_witness :
  (5 : Z) ≠ 6
  ∧ (<[2%positive := 5]> (<[1%positive := 5]> {[2%positive := 6]}) : memory)
      !! 1%positive = Some 5
  ∧ (<[2%positive := 5]> (<[1%positive := 5]> {[2%positive := 6]}) : memory)
      !! 2%positive = Some 5.
Proof.
  destruct (CompareExchange_completed false false AtomicInt 1%positive
              2%positive 7 AtomicMemoryOrderSeqcst AtomicLoadMemoryOrderSeqcst
              (<[1%positive := 5]> {[2%positive := 6]})
              (<[2%positive := 5]> (<[1%positive := 5]> {[2%positive := 6]}))
              false 5 6)
    as (_ & _ & Hfalse & Hne).
  - reflexivity.
  - reflexivity.
  - left. vm_compute. reflexivity.
  - split; [apply Hne; vm_compute; reflexivity|].
    apply Hfalse. reflexivity.
Defined.

(** ** The cell stays a value of its type *)

Lemma wrap_in_range (dm : data_model) (name : atomic_var) (v : Z) :
  in_range (repr_of dm (c_type_of name)) (wrap (repr_of dm (c_type_of name)) v).
Proof.
  destruct (macro_of name) eqn:Hmacro.
  - destruct name; try discriminate Hmacro. simpl.
    destruct (v =? 0); lia.
  - apply integer_wrap_in_range. exact Hmacro.
Qed.

Lemma holds_scalar_insert dm name ptr (m : memory) (v : Z) :
  in_range (repr_of dm (c_type_of name)) v →
  holds_scalar dm name ptr (<[ptr := v]> m).
Proof. intros Hv. exists v. split; [apply lookup_insert_eq|exact Hv]. Qed.

Lemma CompareExchangeStrong_as_weak NDEBUG name ptr expected desired
    succ fail (m m' : memory) (ok : bool) :
  CCompareExchangeStrong NDEBUG name ptr expected desired succ fail m
    = Done ok m' →
  CCompareExchangeWeak NDEBUG false name ptr expected desired succ fail m
    = Done ok m'.
Proof.
  intros H.
  assert (Hord : NDEBUG = true ∨ fail <= succ).
  { unfold CCompareExchangeStrong, assert, mbind, M_bind in H.
    destruct (NDEBUG || (fail <=? succ)) eqn:Hassert; [|discriminate H].
    apply orb_true_iff in Hassert as [->|Hle]; [left; reflexivity|right; lia]. }
  rewrite CompareExchangeWeak_not_spurious by exact Hord. exact H.
Qed.

Lemma CompareExchangeWeak_keeps_scalar dm NDEBUG sp name ptr expected desired
    succ fail (m m' : memory) (ok : bool) :
  holds_scalar dm name ptr m →
  in_range (repr_of dm (c_type_of name)) desired →
  CCompareExchangeWeak NDEBUG sp name ptr expected desired succ fail m
    = Done ok m' →
  holds_scalar dm name ptr m'.
Proof.
  intros (v & Hv & Hrange) Hdesired H.
  apply CompareExchangeWeak_completed in H
    as (cur & exp & Hptr & Hexp & _ & Hok).
  rewrite Hv in Hptr. injection Hptr as <-.
  destruct ok.
  - destruct Hok as (_ & _ & ->). apply holds_scalar_insert. exact Hdesired.
  - destruct Hok as (_ & ->). exists v. split; [|exact Hrange].
    destruct (decide (expected = ptr)) as [->|Hne].
    + apply lookup_insert_eq.
    + rewrite lookup_insert_ne by exact Hne. exact Hv.
Qed.

Lemma atomic_fetch_keeps_scalar dm name op ptr operand order
    (m m' : memory) (old : Z) :
  holds_scalar dm name ptr m →
  atomic_fetch op (repr_of dm (c_type_of name)) ptr operand order m
    = Done old m' →
  in_range (repr_of dm (c_type_of name)) old ∧ holds_scalar dm name ptr m'.
Proof.
  intros (v & Hv & Hrange) H.
  rewrite (atomic_fetch_Some _ _ _ _ _ _ v Hv) in H. injection H as <- <-.
  split; [exact Hrange|]. apply holds_scalar_insert, wrap_in_range.
Qed.

(** X3.  Once the cell holds a value of its type, it does so after every
    operation that is given values of the type: Initialize, Store,
    Exchange, both compare-exchange forms, the bitwise fetches and, for the
    integer instantiations, FetchAdd and FetchSub with any operand.  The
    value an operation returns is a value of the type as well. *)
Theorem operations_keep_scalar :
  ∀ (dm : data_model) (NDEBUG spurious : bool) (name : atomic_var)
    (ptr expected : pointer) (value order succ fail : Z) (m m' : memory),
    holds_scalar dm name ptr m →
    in_range (repr_of dm (c_type_of name)) value →
    (CInitialize name ptr value m = Done tt m' → holds_scalar dm name ptr m')
    ∧ (CStore name ptr value order m = Done tt m'
       → holds_scalar dm name ptr m')
    ∧ (∀ v, CLoad name ptr order m = Done v m'
       → in_range (repr_of dm (c_type_of name)) v
         ∧ holds_scalar dm name ptr m')
    ∧ (∀ old, CExchange name ptr value order m = Done old m'
       → in_range (repr_of dm (c_type_of name)) old
         ∧ holds_scalar dm name ptr m')
    ∧ (∀ ok, CCompareExchangeStrong NDEBUG name ptr expected value
               succ fail m = Done ok m'
       → holds_scalar dm name ptr m')
    ∧ (∀ ok, CCompareExchangeWeak NDEBUG spurious name ptr expected value
               succ fail m = Done ok m'
       → holds_scalar dm name ptr m')
    ∧ (∀ old, CFetchAnd dm name ptr value order m = Done old m'
            ∨ CFetchOr dm name ptr value order m = Done old m'
            ∨ CFetchXor dm name ptr value order m = Done old m'
       → in_range (repr_of dm (c_type_of name)) old
         ∧ holds_scalar dm name ptr m')
    ∧ (macro_of name = CATOMIC_INTEGER →
       ∀ operand old, CFetchAdd dm name ptr operand order m = Done old m'
                    ∨ CFetchSub dm name ptr operand order m = Done old m'
       → in_range (repr_of dm (c_type_of name)) old
         ∧ holds_scalar dm name ptr m').
Proof.
  intros dm NDEBUG spurious name ptr expected value order succ fail m m'
    Hholds Hvalue.
  pose proof Hholds as (v & Hv & Hrange).
  repeat apply conj.
  - intros H. injection H as <-. apply holds_scalar_insert, Hvalue.
  - intros H. rewrite (Store_Some _ _ _ _ _ v Hv) in H. injection H as <-.
    apply holds_scalar_insert, Hvalue.
  - intros v' H. rewrite (Load_Some _ _ _ _ v Hv) in H. injection H as <- <-.
    split; [exact Hrange|exact Hholds].
  - intros old H. rewrite (Exchange_Some _ _ _ _ _ v Hv) in H.
    injection H as <- <-.
    split; [exact Hrange|]. apply holds_scalar_insert, Hvalue.
  - intros ok H. apply CompareExchangeStrong_as_weak in H.
    exact (CompareExchangeWeak_keeps_scalar _ _ _ _ _ _ _ _ _ _ _ _
             Hholds Hvalue H).
  - intros ok H.
    exact (CompareExchangeWeak_keeps_scalar _ _ _ _ _ _ _ _ _ _ _ _
             Hholds Hvalue H).
  - intros old [H|[H|H]];
      unfold CFetchAnd, atomic_fetch_and_explicit, CFetchOr,
        atomic_fetch_or_explicit, CFetchXor, atomic_fetch_xor_explicit in H;
      exact (atomic_fetch_keeps_scalar dm name _ ptr value order m m' old
               Hholds H).
  - intros _ operand old [H|H];
      unfold CFetchAdd, atomic_fetch_add_explicit, CFetchSub,
        atomic_fetch_sub_explicit in H;
      exact (atomic_fetch_keeps_scalar dm name _ ptr operand order m m' old
               Hholds H).
Qed.

Lemma operations_keep_scalar_witness :
  holds_scalar LP64 AtomicInt8 1%positive
    (<[1%positive := -128]> {[1%positive := 127]}).
Proof.
  destruct (operations_keep_scalar LP64 false false AtomicInt8 1%positive
              2%positive 0 AtomicMemoryOrderRelaxed 0 0 {[1%positive := 127]}
              (<[1%positive := -128]> {[1%positive := 127]}))
    as (_ & _ & _ & _ & _ & _ & _ & Hadd).
  - exists 127. split; [reflexivity|simpl; lia].
  - simpl; lia.
  - apply (Hadd eq_refl 1 127). left. reflexivity.
Defined.

(** ** FetchAdd and FetchSub compose as arithmetic modulo 2 ^ width *)

Lemma wrap_of_congruent (r : repr) (x y : Z) :
  r ≠ RBool →
  x mod 2 ^ width r = y mod 2 ^ width r → wrap r x = wrap r y.
Proof.
  destruct r as [|bits|bits]; intros Hr H; [congruence| |]; simpl in *.
  - f_equal.
    rewrite (Zplus_mod x), (Zplus_mod y), H. reflexivity.
  - exact H.
Qed.

Lemma in_range_congruent_eq (r : repr) (x y : Z) :
  r ≠ RBool → 0 < width r →
  in_range r x → in_range r y →
  x mod 2 ^ width r = y mod 2 ^ width r → x = y.
Proof.
  intros Hr Hw Hx Hy H.
  rewrite <- (wrap_id r x Hw Hx), <- (wrap_id r y Hw Hy).
  apply wrap_of_congruent; assumption.
Qed.

Lemma integer_not_bool (dm : data_model) (name : atomic_var) :
  macro_of name = CATOMIC_INTEGER → repr_of dm (c_type_of name) ≠ RBool.
Proof.
  intros H. destruct (integer_repr dm name H) as (bits & _ & [-> | ->]);
    discriminate.
Qed.

Lemma wrap_add_l (r : repr) (x y : Z) :
  r ≠ RBool → wrap r (wrap r x + y) = wrap r (x + y).
Proof.
  intros Hr. apply wrap_of_congruent; [exact Hr|].
  rewrite (Zplus_mod (wrap r x)), wrap_congruent by exact Hr.
  rewrite <- Zplus_mod. reflexivity.
Qed.

Lemma wrap_sub_l (r : repr) (x y : Z) :
  r ≠ RBool → wrap r (wrap r x - y) = wrap r (x - y).
Proof.
  intros Hr. apply wrap_of_congruent; [exact Hr|].
  rewrite (Zminus_mod (wrap r x)), wrap_congruent by exact Hr.
  rewrite <- Zminus_mod. reflexivity.
Qed.

Lemma wrap_add_r (r : repr) (x y : Z) :
  r ≠ RBool → wrap r (x + wrap r y) = wrap r (x + y).
Proof.
  intros Hr. rewrite (Z.add_comm x (wrap r y)), (Z.add_comm x y).
  apply wrap_add_l; exact Hr.
Qed.

Lemma FetchAdd_Some dm name ptr value order (m : memory) (old : Z) :
  m !! ptr = Some old →
  CFetchAdd dm name ptr value order m
  = Done old (<[ptr := wrap (repr_of dm (c_type_of name)) (old + value)]> m).
Proof. apply atomic_fetch_Some. Qed.

Lemma FetchSub_Some dm name ptr value order (m : memory) (old : Z) :
  m !! ptr = Some old →
  CFetchSub dm name ptr value order m
  = Done old (<[ptr := wrap (repr_of dm (c_type_of name)) (old - value)]> m).
Proof. apply atomic_fetch_Some. Qed.

(** X4.  On an integer cell that holds a value of its type, FetchAdd of any
    operand followed by FetchSub of the same operand, or the other way
    round, leaves the storage exactly as it was, also when the first of the
    two wrapped around; the first call returns the original value. *)
Theorem FetchAdd_FetchSub_round_trip :
  ∀ (dm : data_model) (name : atomic_var) (ptr : pointer)
    (value order : Z) (m : memory) (old : Z),
    macro_of name = CATOMIC_INTEGER →
    m !! ptr = Some old →
    in_range (repr_of dm (c_type_of name)) old →
    (∃ mid,
       CFetchAdd dm name ptr value order m = Done old (<[ptr := mid]> m)
       ∧ CFetchSub dm name ptr value order (<[ptr := mid]> m) = Done mid m
       ∧ (CFetchAdd dm name ptr value order;;
          CFetchSub dm name ptr value order) m = Done mid m)
    ∧ (∃ mid,
         CFetchSub dm name ptr value order m = Done old (<[ptr := mid]> m)
         ∧ CFetchAdd dm name ptr value order (<[ptr := mid]> m) = Done mid m
         ∧ (CFetchSub dm name ptr value order;;
            CFetchAdd dm name ptr value order) m = Done mid m).
Proof.
  intros dm name ptr value order m old Hint Hptr Hold.
  pose proof (integer_not_bool dm name Hint) as Hr.
  pose proof (positive_width dm name) as Hw.
  set (r := repr_of dm (c_type_of name)) in *.
  assert (Hback : ∀ mid back,
            wrap r back = old → <[ptr := wrap r back]> (<[ptr := mid]> m) = m).
  { intros mid back ->. rewrite insert_insert_eq. apply insert_id, Hptr. }
  split.
  - exists (wrap r (old + value)).
    assert (Hsub : CFetchSub dm name ptr value order
                     (<[ptr := wrap r (old + value)]> m)
                   = Done (wrap r (old + value)) m).
    { rewrite (FetchSub_Some _ _ _ _ _ _ (wrap r (old + value)))
        by apply lookup_insert_eq.
      fold r. rewrite Hback; [reflexivity|].
      rewrite wrap_sub_l by exact Hr.
      replace (old + value - value) with old by lia.
      apply wrap_id; assumption. }
    split; [apply FetchAdd_Some; exact Hptr|]. split; [exact Hsub|].
    rewrite (bind_Done _ _ _ _ _ (FetchAdd_Some dm name ptr value order m old Hptr)).
    exact Hsub.
  - exists (wrap r (old - value)).
    assert (Hadd : CFetchAdd dm name ptr value order
                     (<[ptr := wrap r (old - value)]> m)
                   = Done (wrap r (old - value)) m).
    { rewrite (FetchAdd_Some _ _ _ _ _ _ (wrap r (old - value)))
        by apply lookup_insert_eq.
      fold r. rewrite Hback; [reflexivity|].
      rewrite wrap_add_l by exact Hr.
      replace (old - value + value) with old by lia.
      apply wrap_id; assumption. }
    split; [apply FetchSub_Some; exact Hptr|]. split; [exact Hadd|].
    rewrite (bind_Done _ _ _ _ _ (FetchSub_Some dm name ptr value order m old Hptr)).
    exact Hadd.
Qed.

Lemma FetchAdd_FetchSub_round_trip_witness :
  ∃ mid : Z,
    (CFetchAdd LP64 AtomicUInt8 1%positive 10 AtomicMemoryOrderRelaxed;;
     CFetchSub LP64 AtomicUInt8 1%positive 10 AtomicMemoryOrderRelaxed)
      {[1%positive := 250]}
    = Done mid {[1%positive := 250]}.
Proof.
  destruct (FetchAdd_FetchSub_round_trip LP64 AtomicUInt8 1%positive 10
              AtomicMemoryOrderRelaxed {[1%positive := 250]} 250)
    as [(mid & _ & _ & Hseq) _]; [reflexivity..|simpl; lia|].
  exists mid. exact Hseq.
Defined.

(** X5.  On an integer cell, two FetchAdd calls in a row leave the storage
    one FetchAdd of the sum of the operands leaves, the second call
    returning what the first left in the cell; and FetchSub of an operand
    is FetchAdd of its negation taken in the type (for an unsigned type,
    subtracting 1 is adding the maximum value). *)
Theorem FetchAdd_composes :
  ∀ (dm : data_model) (name : atomic_var) (ptr : pointer)
    (a b order : Z) (m : memory) (old : Z),
    macro_of name = CATOMIC_INTEGER →
    m !! ptr = Some old →
    (∃ mid final,
       CFetchAdd dm name ptr a order m = Done old (<[ptr := mid]> m)
       ∧ (CFetchAdd dm name ptr a order;; CFetchAdd dm name ptr b order) m
         = Done mid (<[ptr := final]> m)
       ∧ CFetchAdd dm name ptr (a + b) order m
         = Done old (<[ptr := final]> m))
    ∧ CFetchSub dm name ptr a order m
      = CFetchAdd dm name ptr (wrap (repr_of dm (c_type_of name)) (- a))
          order m.
Proof.
  intros dm name ptr a b order m old Hint Hptr.
  pose proof (integer_not_bool dm name Hint) as Hr.
  set (r := repr_of dm (c_type_of name)) in *.
  split.
  - exists (wrap r (old + a)), (wrap r (old + (a + b))).
    split; [apply FetchAdd_Some; exact Hptr|].
    split; [|apply FetchAdd_Some; exact Hptr].
    rewrite (bind_Done _ _ _ _ _ (FetchAdd_Some dm name ptr a order m old Hptr)).
    rewrite (FetchAdd_Some _ _ _ _ _ _ (wrap r (old + a)))
      by apply lookup_insert_eq.
    fold r. rewrite insert_insert_eq, wrap_add_l by exact Hr.
    rewrite Z.add_assoc. reflexivity.
  - rewrite (FetchSub_Some _ _ _ _ _ _ old Hptr).
    rewrite (FetchAdd_Some _ _ _ _ _ _ old Hptr).
    fold r. rewrite wrap_add_r by exact Hr. reflexivity.
Qed.

Lemma FetchAdd_composes_witness :
  CFetchSub LP64 AtomicUInt8 1%positive 1 AtomicMemoryOrderAcqrel
    {[1%positive := 0]}
  = CFetchAdd LP64 AtomicUInt8 1%positive 255 AtomicMemoryOrderAcqrel
      {[1%positive := 0]}.
Proof.
  refine (proj2 (FetchAdd_composes LP64 AtomicUInt8 1%positive 1 0
                   AtomicMemoryOrderAcqrel {[1%positive := 0]} 0 _ _));
    reflexivity.
Defined.

(** ** StrongestLoadOrder as the failure ordering *)

Lemma StrongestLoadOrder_le (self : Z) :
  0 <= self → AtomicMemoryOrderStrongestLoadOrder self <= self.
Proof.
  intros Hself.
  destruct (StrongestLoadOrder_switch self)
    as [[-> ->]|[[-> ->]|[[-> ->]|[[-> ->]|[[-> ->]|[[-> ->]|[Hnot ->]]]]]]];
    try (vm_compute; discriminate).
  assert (H : self ≠ 0 ∧ self ≠ 1 ∧ self ≠ 2 ∧ self ≠ 3 ∧ self ≠ 4 ∧ self ≠ 5).
  { repeat split; intros ->; apply Hnot;
      [exists Relaxed|exists Consume|exists Acquire
      |exists Release|exists Acqrel|exists Seqcst]; reflexivity. }
  change AtomicLoadMemoryOrderSeqcst with 5. lia.
Qed.

(** X6.  The raw value of the ordering StrongestLoadOrder returns never
    exceeds that of its argument, for every value an unsigned enumeration
    can hold.  So a compare-exchange whose failure ordering is derived from
    its success ordering by StrongestLoadOrder never stops in the
    assertion, in any build. *)
Theorem StrongestLoadOrder_passes_assert :
  ∀ (NDEBUG spurious : bool) (name : atomic_var) (ptr expected : pointer)
    (desired succ : Z) (m : memory),
    0 <= succ →
    AtomicMemoryOrderStrongestLoadOrder succ <= succ
    ∧ CCompareExchangeStrong NDEBUG name ptr expected desired succ
        (AtomicMemoryOrderStrongestLoadOrder succ) m ≠ AssertionFailure
    ∧ CCompareExchangeWeak NDEBUG spurious name ptr expected desired succ
        (AtomicMemoryOrderStrongestLoadOrder succ) m ≠ AssertionFailure.
Proof.
  intros NDEBUG spurious name ptr expected desired succ m Hsucc.
  pose proof (StrongestLoadOrder_le succ Hsucc) as Hle.
  assert (Hassert : assert NDEBUG
                      (AtomicMemoryOrderStrongestLoadOrder succ <=? succ) m
                    = Done tt m).
  { apply assert_passes. right. lia. }
  split; [exact Hle|]. split.
  - unfold CCompareExchangeStrong. rewrite (bind_Done _ _ _ _ _ Hassert).
    apply strong_not_AssertionFailure.
  - unfold CCompareExchangeWeak. rewrite (bind_Done _ _ _ _ _ Hassert).
    apply weak_not_AssertionFailure.
Qed.

Lemma StrongestLoadOrder_passes_assert_witness :
  CCompareExchangeStrong false AtomicInt 1%positive 2%positive 7
    AtomicMemoryOrderRelease
    (AtomicMemoryOrderStrongestLoadOrder AtomicMemoryOrderRelease)
    (<[1%positive := 5]> {[2%positive := 5]})
  ≠ AssertionFailure.
Proof.
  refine (proj1 (proj2 (StrongestLoadOrder_passes_assert false false AtomicInt
            1%positive 2%positive 7 AtomicMemoryOrderRelease
            (<[1%positive := 5]> {[2%positive := 5]}) _))).
  vm_compute. discriminate.
Defined.

(** X7.  For every ordering, StrongestLoadOrder returns a load ordering
    whose raw value does not exceed the argument's.  For every ordering but
    release it is the greatest such load ordering; for release it is
    relaxed, although consume and acquire are load orderings whose raw
    values do not exceed release's either. *)
Theorem StrongestLoadOrder_greatest_but_release :
  ∀ o : AtomicMemoryOrder,
    (∃ r : AtomicLoadMemoryOrder,
       AtomicMemoryOrderStrongestLoadOrder (rawValue o) = loadRawValue r
       ∧ loadRawValue r <= rawValue o
       ∧ (o ≠ Release →
          ∀ l : AtomicLoadMemoryOrder,
            loadRawValue l <= rawValue o → loadRawValue l <= loadRawValue r))
    ∧ (o = Release →
       AtomicMemoryOrderStrongestLoadOrder (rawValue o)
         = loadRawValue LoadRelaxed
       ∧ loadRawValue LoadRelaxed < loadRawValue LoadConsume <= rawValue o
       ∧ loadRawValue LoadRelaxed < loadRawValue LoadAcquire <= rawValue o).
Proof.
  intros o. split.
  - exists match o with
           | Relaxed | Release => LoadRelaxed
           | Consume => LoadConsume
           | Acquire | Acqrel => LoadAcquire
           | Seqcst => LoadSeqcst
           end.
    split; [destruct o; reflexivity|].
    split; [destruct o; vm_compute; discriminate|].
    intros Hne l Hle. destruct o, l; try congruence;
      vm_compute in Hle |- *; congruence.
  - intros ->. vm_compute. repeat split; congruence.
Qed.

Lemma StrongestLoadOrder_greatest_but_release_witness :
  ∃ r : AtomicLoadMemoryOrder,
    AtomicMemoryOrderStrongestLoadOrder (rawValue Acqrel) = loadRawValue r
    ∧ loadRawValue r <= rawValue Acqrel
    ∧ loadRawValue LoadAcquire <= loadRawValue r.
Proof.
  destruct (proj1 (StrongestLoadOrder_greatest_but_release Acqrel))
    as (r & Heq & Hle & Hmax).
  exists r. split; [exact Heq|]. split; [exact Hle|].
  apply Hmax; [discriminate|vm_compute; discriminate].
Defined.

(** ** Compare-exchange, call after call *)

Section STRONG.

Context (NDEBUG : bool) (name : atomic_var) (ptr expected : pointer).
Context (desired succ fail : Z).
Context (Horder : NDEBUG = true ∨ fail <= succ).

Lemma CompareExchangeStrong_equal (m : memory) (cur : Z) :
  m !! ptr = Some cur → m !! expected = Some cur →
  CCompareExchangeStrong NDEBUG name ptr expected desired succ fail m
  = Done true (<[ptr := desired]> m).
Proof.
  intros Hptr Hexp. unfold CCompareExchangeStrong.
  rewrite (bind_Done _ _ _ _ _
             (CompareExchange_assert_passes _ _ _ Horder m)).
  apply (strong_equal _ _ _ _ _ _ cur); assumption.
Qed.

Lemma CompareExchangeStrong_different (m : memory) (cur exp : Z) :
  m !! ptr = Some cur → m !! expected = Some exp → cur ≠ exp →
  CCompareExchangeStrong NDEBUG name ptr expected desired succ fail m
  = Done false (<[expected := cur]> m).
Proof.
  intros Hptr Hexp Hne. unfold CCompareExchangeStrong.
  rewrite (bind_Done _ _ _ _ _
             (CompareExchange_assert_passes _ _ _ Horder m)).
  apply (strong_different _ _ _ _ _ _ cur exp); assumption.
Qed.

End STRONG.

(** X8.  A strong compare-exchange that fails has stored the cell's value
    into [*expected], so the same call made again at once succeeds: the
    pair of calls returns true and leaves [desired] in the cell and the
    value the cell had in [*expected]. *)
Theorem CompareExchangeStrong_retry_after_failure :
  ∀ (NDEBUG : bool) (name : atomic_var) (ptr expected : pointer)
    (desired succ fail : Z) (m : memory) (cur exp : Z),
    NDEBUG = true ∨ fail <= succ →
    m !! ptr = Some cur →
    m !! expected = Some exp →
    cur ≠ exp →
    (CCompareExchangeStrong NDEBUG name ptr expected desired succ fail;;
     CCompareExchangeStrong NDEBUG name ptr expected desired succ fail) m
    = Done true (<[ptr := desired]> (<[expected := cur]> m))
    ∧ <[ptr := desired]> (<[expected := cur]> m) !! ptr = Some desired
    ∧ <[ptr := desired]> (<[expected := cur]> m) !! expected = Some cur.
Proof.
  intros NDEBUG name ptr expected desired succ fail m cur exp
    Hord Hptr Hexp Hne.
  assert (Hdistinct : ptr ≠ expected).
  { intros ->. rewrite Hptr in Hexp. congruence. }
  split; [|split].
  - rewrite (bind_Done _ _ m (<[expected := cur]> m) false)
      by (apply (CompareExchangeStrong_different _ _ _ _ _ _ _ Hord m cur exp);
          assumption).
    apply (CompareExchangeStrong_equal _ _ _ _ _ _ _ Hord _ cur).
    + rewrite lookup_insert_ne by congruence. exact Hptr.
    + apply lookup_insert_eq.
  - apply lookup_insert_eq.
  - rewrite lookup_insert_ne by exact Hdistinct. apply lookup_insert_eq.
Qed.

Lemma CompareExchangeStrong_retry_after_failure_witness :
  (CCompareExchangeStrong false AtomicInt64 1%positive 2%positive 7
     AtomicMemoryOrderSeqcst AtomicLoadMemoryOrderSeqcst;;
   CCompareExchangeStrong false AtomicInt64 1%positive 2%positive 7
     AtomicMemoryOrderSeqcst AtomicLoadMemoryOrderSeqcst)
    (<[1%positive := 5]> {[2%positive := 6]})
  = Done true
      (<[1%positive := 7]>
         (<[2%positive := 5]> (<[1%positive := 5]> {[2%positive := 6]}))).
Proof.
  refine (proj1 (CompareExchangeStrong_retry_after_failure false AtomicInt64
            1%positive 2%positive 7 AtomicMemoryOrderSeqcst
            AtomicLoadMemoryOrderSeqcst
            (<[1%positive := 5]> {[2%positive := 6]}) 5 6 _ _ _ _));
    [right; vm_compute; discriminate|reflexivity..|discriminate].
Defined.

(** X9.  When [*expected] is an object of its own and [desired] differs
    from the value the cell holds, a strong compare-exchange with a
    matching [*expected] succeeds once only: the same call made again
    returns false, leaves [desired] in the cell and stores it into
    [*expected].  When [expected] points at the cell itself, every call
    succeeds. *)
Theorem CompareExchangeStrong_succeeds_once :
  ∀ (NDEBUG : bool) (name : atomic_var) (ptr expected : pointer)
    (desired succ fail : Z) (m : memory) (cur : Z),
    NDEBUG = true ∨ fail <= succ →
    m !! ptr = Some cur →
    m !! expected = Some cur →
    (ptr ≠ expected → desired ≠ cur →
     CCompareExchangeStrong NDEBUG name ptr expected desired succ fail m
       = Done true (<[ptr := desired]> m)
     ∧ CCompareExchangeStrong NDEBUG name ptr expected desired succ fail
         (<[ptr := desired]> m)
       = Done false (<[expected := desired]> (<[ptr := desired]> m))
     ∧ <[expected := desired]> (<[ptr := desired]> m) !! ptr = Some desired)
    ∧ (ptr = expected →
       CCompareExchangeStrong NDEBUG name ptr expected desired succ fail m
         = Done true (<[ptr := desired]> m)
       ∧ CCompareExchangeStrong NDEBUG name ptr expected desired succ fail
           (<[ptr := desired]> m)
         = Done true (<[ptr := desired]> m)).
Proof.
  intros NDEBUG name ptr expected desired succ fail m cur Hord Hptr Hexp.
  pose proof (CompareExchangeStrong_equal _ name ptr expected desired _ _
                Hord m cur Hptr Hexp) as Hfirst.
  split.
  - intros Hdistinct Hne. split; [exact Hfirst|]. split.
    + apply (CompareExchangeStrong_different _ _ _ _ _ _ _ Hord _ desired cur).
      * apply lookup_insert_eq.
      * rewrite lookup_insert_ne by exact Hdistinct. exact Hexp.
      * exact Hne.
    + rewrite lookup_insert_ne by congruence. apply lookup_insert_eq.
  - intros <-. split; [exact Hfirst|].
    rewrite (CompareExchangeStrong_equal _ name ptr ptr desired _ _
               Hord (<[ptr := desired]> m) desired)
      by apply lookup_insert_eq.
    rewrite insert_insert_eq. reflexivity.
Qed.

Lemma CompareExchangeStrong_succeeds_once_witness :
  CCompareExchangeStrong false AtomicBool 1%positive 2%positive 1
    AtomicMemoryOrderAcquire AtomicLoadMemoryOrderRelaxed
    (<[1%positive := 1]> (<[1%positive := 0]> {[2%positive := 0]}))
  = Done false
      (<[2%positive := 1]>
         (<[1%positive := 1]> (<[1%positive := 0]> {[2%positive := 0]}))).
Proof.
  refine (proj1 (proj2 (proj1 (CompareExchangeStrong_succeeds_once false
            AtomicBool 1%positive 2%positive 1 AtomicMemoryOrderAcquire
            AtomicLoadMemoryOrderRelaxed
            (<[1%positive := 0]> {[2%positive := 0]}) 0 _ _ _) _ _)));
    [right; vm_compute; discriminate|reflexivity..|discriminate|discriminate].
Defined.

(** ** What an operation leaves alone *)

Lemma read_completed (p : pointer) (m m' : memory) (v : Z) :
  read p m = Done v m' → m !! p = Some v ∧ m' = m.
Proof.
  unfold read. destruct (m !! p) as [x|]; [|discriminate].
  intros H. injection H as <- <-. split; reflexivity.
Qed.

Lemma write_completed (p : pointer) (v : Z) (m m' : memory) (u : unit) :
  write p v m = Done u m' → is_Some (m !! p) ∧ m' = <[p := v]> m.
Proof.
  unfold write. destruct (m !! p) as [x|] eqn:E; [|discriminate].
  intros H. split; [eexists; reflexivity|congruence].
Qed.

Lemma atomic_fetch_completed op r obj operand order (m m' : memory) (old : Z) :
  atomic_fetch op r obj operand order m = Done old m' →
  m !! obj = Some old ∧ m' = <[obj := wrap r (op old operand)]> m.
Proof.
  intros H. destruct (m !! obj) as [v|] eqn:E.
  - rewrite (atomic_fetch_Some _ _ _ _ _ _ v E) in H.
    injection H as <- <-. split; reflexivity.
  - unfold atomic_fetch, mbind, M_bind, read in H. rewrite E in H.
    discriminate H.
Qed.

Lemma Exchange_completed name ptr value order (m m' : memory) (old : Z) :
  CExchange name ptr value order m = Done old m' →
  m !! ptr = Some old ∧ m' = <[ptr := value]> m.
Proof.
  intros H. destruct (m !! ptr) as [v|] eqn:E.
  - rewrite (Exchange_Some _ _ _ _ _ v E) in H.
    injection H as <- <-. split; reflexivity.
  - unfold CExchange, atomic_exchange_explicit, mbind, M_bind, read in H.
    rewrite E in H. discriminate H.
Qed.

(** X10.  No operation changes storage other than what it is given: Load
    changes nothing at all; Initialize, Store, Exchange and the fetches
    change at most the cell; a compare-exchange changes at most the cell
    and [*expected]. *)
Theorem operations_leave_other_storage :
  ∀ (dm : data_model) (NDEBUG spurious : bool) (name : atomic_var)
    (ptr expected : pointer) (value order succ fail : Z)
    (m m' : memory) (q : pointer),
    q ≠ ptr →
    (CInitialize name ptr value m = Done tt m' → m' !! q = m !! q)
    ∧ (CStore name ptr value order m = Done tt m' → m' !! q = m !! q)
    ∧ (∀ v, CLoad name ptr order m = Done v m' → m' = m)
    ∧ (∀ old,
         CExchange name ptr value order m = Done old m'
         ∨ CFetchAnd dm name ptr value order m = Done old m'
         ∨ CFetchOr dm name ptr value order m = Done old m'
         ∨ CFetchXor dm name ptr value order m = Done old m'
         ∨ CFetchAdd dm name ptr value order m = Done old m'
         ∨ CFetchSub dm name ptr value order m = Done old m'
         → m' !! q = m !! q)
    ∧ (∀ ok,
         q ≠ expected →
         CCompareExchangeStrong NDEBUG name ptr expected value succ fail m
           = Done ok m'
         ∨ CCompareExchangeWeak NDEBUG spurious name ptr expected value
             succ fail m = Done ok m'
         → m' !! q = m !! q).
Proof.
  intros dm NDEBUG spurious name ptr expected value order succ fail m m' q Hq.
  repeat apply conj.
  - intros H. injection H as <-. apply lookup_insert_ne. congruence.
  - intros H. apply write_completed in H as [_ ->].
    apply lookup_insert_ne. congruence.
  - intros v H. apply read_completed in H as [_ ->]. reflexivity.
  - intros old [H|[H|[H|[H|[H|H]]]]].
    1: apply Exchange_completed in H as [_ ->].
    2-6: unfold CFetchAnd, atomic_fetch_and_explicit, CFetchOr,
           atomic_fetch_or_explicit, CFetchXor, atomic_fetch_xor_explicit,
           CFetchAdd, atomic_fetch_add_explicit, CFetchSub,
           atomic_fetch_sub_explicit in H;
         destruct (atomic_fetch_completed _ _ _ _ _ _ _ _ H) as [_ ->].
    all: apply lookup_insert_ne; congruence.
  - intros ok Hq' H.
    assert (Hweak : ∃ sp, CCompareExchangeWeak NDEBUG sp name ptr expected
                            value succ fail m = Done ok m').
    { destruct H as [H|H]; [exists false|exists spurious; exact H].
      apply CompareExchangeStrong_as_weak. exact H. }
    destruct Hweak as [sp Hweak].
    apply CompareExchangeWeak_completed in Hweak
      as (cur & exp & _ & _ & _ & Hok).
    destruct ok.
    + destruct Hok as (_ & _ & ->). apply lookup_insert_ne. congruence.
    + destruct Hok as (_ & ->). apply lookup_insert_ne. congruence.
Qed.

Lemma operations_leave_other_storage_witness :
  (<[1%positive := 9]> (<[1%positive := 5]> {[2%positive := 6]}) : memory)
    !! 2%positive
  = (<[1%positive := 5]> {[2%positive := 6]} : memory) !! 2%positive.
Proof.
  destruct (operations_leave_other_storage LP64 false false AtomicUInt16
              1%positive 3%positive 4 AtomicMemoryOrderRelaxed 0 0
              (<[1%positive := 5]> {[2%positive := 6]})
              (<[1%positive := 9]> (<[1%positive := 5]> {[2%positive := 6]}))
              2%positive)
    as (_ & _ & _ & Hfetch & _); [discriminate|].
  apply (Hfetch 5). do 4 right. left. reflexivity.
Defined.

(** ** Store and Load *)

(** X11.  On an initialised cell the last Store wins: after two stores a
    Load returns the second value, and loading again returns it again and
    changes nothing. *)
Theorem Store_then_Load :
  ∀ (name : atomic_var) (ptr : pointer) (v1 v2 : Z)
    (o1 o2 : AtomicStoreMemoryOrder) (o : AtomicLoadMemoryOrder)
    (m : memory) (old : Z),
    m !! ptr = Some old →
    (CStore name ptr v1 (storeRawValue o1);;
     CStore name ptr v2 (storeRawValue o2);;
     CLoad name ptr (loadRawValue o)) m
    = Done v2 (<[ptr := v2]> m)
    ∧ (CLoad name ptr (loadRawValue o);; CLoad name ptr (loadRawValue o))
        (<[ptr := v2]> m)
      = Done v2 (<[ptr := v2]> m).
Proof.
  intros name ptr v1 v2 o1 o2 o m old Hptr.
  assert (Hload : CLoad name ptr (loadRawValue o) (<[ptr := v2]> m)
                  = Done v2 (<[ptr := v2]> m)).
  { apply Load_Some, lookup_insert_eq. }
  split.
  - rewrite (bind_Done _ _ m (<[ptr := v1]> m) tt)
      by (apply (Store_Some _ _ _ _ _ old); exact Hptr).
    rewrite (bind_Done _ _ (<[ptr := v1]> m) (<[ptr := v2]> m) tt).
    + exact Hload.
    + rewrite (Store_Some _ _ _ _ _ v1) by apply lookup_insert_eq.
      rewrite insert_insert_eq. reflexivity.
  - rewrite (bind_Done _ _ _ _ _ Hload). exact Hload.
Qed.

Lemma Store_then_Load_witness :
  (CStore AtomicUInt32 1%positive 8 AtomicStoreMemoryOrderRelease;;
   CStore AtomicUInt32 1%positive 9 AtomicStoreMemoryOrderSeqcst;;
   CLoad AtomicUInt32 1%positive AtomicLoadMemoryOrderAcquire)
    {[1%positive := 0]}
  = Done 9 (<[1%positive := 9]> {[1%positive := 0]}).
Proof.
  refine (proj1 (Store_then_Load AtomicUInt32 1%positive 8 9
                   StoreRelease StoreSeqcst LoadAcquire
                   {[1%positive := 0]} 0 _)).
  reflexivity.
Defined.
